(** * Structural priors and the reactive validator of deep symbolic
    optimization

    A shallow embedding of [dsr/prior.py] (the constraint objects and the
    [JointPrior] that sums their logit adjustments) and of the checks of
    [dsr/gp/symbolic_math.py] ([check_inv], [check_trig] and the
    [checkConstraint] decorator), with the properties the specification
    states about them. *)

From Stdlib Require Import ZArith Floats.SpecFloat Permutation.
From stdpp Require Import base tactics option list gmap strings.

Local Open Scope Z_scope.

(** ** Python exceptions and the error monad *)

Inductive exn : Set :=
| NotImplementedError
| AssertionError
| IndexError
| ValueError.

Inductive result (A : Type) : Type :=
| Ok (a : A)
| Raise (e : exn).
Arguments Ok {A} a.
Arguments Raise {A} e.

#[global] Instance result_ret : MRet result := λ A a, Ok a.
#[global] Instance result_bind : MBind result := λ A B f r,
  match r with Ok a => f a | Raise e => Raise e end.

(** A [for] loop whose body may raise. *)
Fixpoint foldlM {A B : Type} (f : B → A → result B) (b : B) (l : list A)
  : result B :=
  match l with
  | [] => Ok b
  | x :: l' => b' ← f b x; foldlM f b' l'
  end.

(** ** numpy arrays of [float32] logits *)

Module Numpy.

(** [np.float32]: IEEE 754 binary32, 24 bits of precision, infinities at
    exponent 128. *)
Definition float32 : Set := spec_float.
Definition f32_add : float32 → float32 → float32 := SFadd 24 128.
Definition f32_zero : float32 := S754_zero false.
Definition neg_inf : float32 := S754_infinity true.

Abbreviation vector := (list float32).
Abbreviation matrix := (list (list float32)).

(** A two-dimensional integer array; the priors read only its shape. *)
Record ndarray2 : Set := {
  shape0 : nat;
  shape1 : nat;
  items : list (list Z)
}.

(** [np.zeros((n,), dtype=np.float32)] and [np.zeros((b, n), ...)]. *)
Definition zeros (n : nat) : vector := replicate n f32_zero.
Definition zeros2 (b n : nat) : matrix := replicate b (zeros n).

(** [m[r, t]]. *)
Definition cell (m : matrix) (r t : nat) : option float32 :=
  row ← m !! r; row !! t.

(** [v[t] = x] on a vector of length [n]: out of range raises. *)
Definition setitem (v : vector) (t : nat) (x : float32) : result vector :=
  if bool_decide (t < length v)%nat then Ok (<[t := x]> v)
  else Raise IndexError.

(** [prior[mask, t] = x] where [prior] has [n] columns and one row per
    entry of the boolean [mask]; the column index is checked whatever the
    mask selects. *)
Definition setitem_mask (n : nat) (prior : matrix) (mask : list bool)
    (t : nat) (x : float32) : result matrix :=
  if bool_decide (t < n)%nat
  then Ok (zip_with (λ (b : bool) row, if b then <[t := x]> row else row)
                    mask prior)
  else Raise IndexError.

(** [a += b] on vectors of one length. *)
Definition viadd (a b : vector) : vector := zip_with f32_add a b.

(** [a + b] on matrices of one shape. *)
Definition madd (a b : matrix) : matrix := zip_with (zip_with f32_add) a b.

(** [a += b] on matrices with the same number of columns: [b] must have
    as many rows as [a], or a single row, which is then broadcast. *)
Definition iadd (a b : matrix) : result matrix :=
  if bool_decide (length b = length a) then Ok (madd a b)
  else match b with
       | [row] => Ok ((λ arow : vector, zip_with f32_add arow row) <$> a)
       | _ => Raise ValueError
       end.

(** [s + m] for a scalar [s]. *)
Definition scalar_add (s : float32) (m : matrix) : matrix :=
  (λ row : vector, f32_add s <$> row) <$> m.

(** The accumulator of Python's [sum]: it starts from the integer 0. *)
Inductive sum_acc : Set :=
| Start
| Acc (m : matrix).

Definition acc_add (a : sum_acc) (m : matrix) : matrix :=
  match a with
  | Start => scalar_add f32_zero m
  | Acc a' => madd a' m
  end.

Definition py_sum (ms : list matrix) : sum_acc :=
  foldl (λ a m, Acc (acc_add a m)) Start ms.

(** Hard-constraint logits: a cell is 0 (allowed) or -inf (forbidden). *)
Definition hard (x : float32) : Prop := x = f32_zero ∨ x = neg_inf.

Definition flag (b : bool) : float32 := if b then neg_inf else f32_zero.

(** The row, and the [b] by [n] matrix, that forbid exactly the cells a
    boolean function selects. *)
Definition row_of (n : nat) (f : nat → bool) : vector :=
  (λ t, flag (f t)) <$> seq 0 n.

Definition mask_of (b n : nat) (f : nat → nat → bool) : matrix :=
  (λ r, row_of n (f r)) <$> seq 0 b.

(** The vectors and matrices all of whose cells are hard. *)
Definition is_row (n : nat) (v : vector) : Prop := ∃ f, v = row_of n f.

Definition is_mask (b n : nat) (m : matrix) : Prop := ∃ f, m = mask_of b n f.

(** Whether cell [(r, t)] of a mask is -inf. *)
Definition forbidden_cell (m : matrix) (r t : nat) : bool :=
  match cell m r t with
  | Some (S754_infinity true) => true
  | _ => false
  end.

(** [mask[r]], false outside the mask. *)
Definition at_row (mask : list bool) (r : nat) : bool :=
  default false (mask !! r).

End Numpy.

(** ** dsr/prior.py *)

Module Prior.
Import Numpy.

(** A token of the library: its name and arity. *)
Record Token : Set := {
  name : string;
  arity : nat
}.

(** The [Library] the priors are built on.  Its class lives outside
    [prior.py]; the fields are the attributes [prior.py] reads. *)
Record Library : Set := {
  tokens : list Token;
  terminal_tokens : list nat;
  unary_tokens : list nat;
  binary_tokens : list nat;
  parent_adjust : list Z;
  inverse_tokens : list (nat * nat)
}.

(** [library.L]: the number of tokens. *)
Definition L (lib : Library) : nat := length (tokens lib).

(** [library.tokenize(ids)]: the [Token] objects of the given ids. *)
Definition tokenize (lib : Library) (ids : list nat) : result (list Token) :=
  mapM (λ t, match tokens lib !! t with
             | Some tok => Ok tok
             | None => Raise IndexError
             end) ids.

(** [library.actionize(ids)]: the ids of the given tokens; the
    constructors below are given ids already. *)
Definition actionize (lib : Library) (ids : list nat) : list nat := ids.

(** [library.parent_adjust[parents]]. *)
Definition parent_adjust_of (lib : Library) (parents : list nat)
  : result (list Z) :=
  mapM (λ p, match parent_adjust lib !! p with
             | Some a => Ok a
             | None => Raise IndexError
             end) parents.

Section WithLibrary.
Variable lib : Library.

(** [Prior.zeros]. *)
Definition Prior_zeros (actions : ndarray2) : matrix :=
  zeros2 (shape0 actions) (L lib).

(** [Prior.initial_prior]. *)
Definition Prior_initial_prior : vector := zeros (L lib).

(** [Constraint.make_constraint]. *)
Definition make_constraint (mask : list bool) (toks : list nat)
  : result matrix :=
  foldlM (λ prior t, setitem_mask (L lib) prior mask t neg_inf)
         (zeros2 (length mask) (L lib)) toks.

(** The constraint classes, each with the attributes its [__init__]
    stores. [InverseUnaryConstraint] is a [ChildConstraint] built from
    the library's inverse tokens. *)
Inductive Constraint : Set :=
| DescendantConstraint (descendants ancestors : list nat)
| ChildConstraint (children parents : list nat) (adj_parents : list Z)
| RepeatConstraint (toks : list nat) (min_ max_ : option Z)
| LengthConstraint (min_ max_ : option Z).

Definition DescendantConstraint_init (descendants ancestors : list nat)
  : result Constraint :=
  Ok (DescendantConstraint (actionize lib descendants)
                           (actionize lib ancestors)).

(** The assertion of [ChildConstraint.__init__] tests a list, which is
    true when it is not empty. *)
Definition ChildConstraint_init (children parents : list nat)
  : result Constraint :=
  let children' := actionize lib children in
  let parents' := actionize lib parents in
  adj_parents ← parent_adjust_of lib parents;
  toks ← tokenize lib parents;
  match (λ p, bool_decide (0 < arity p)%nat) <$> toks with
  | [] => Raise AssertionError
  | _ :: _ => Ok (ChildConstraint children' parents' adj_parents)
  end.

Definition InverseUnaryConstraint_init : result Constraint :=
  let parents := fst <$> inverse_tokens lib in
  let children := snd <$> inverse_tokens lib in
  ChildConstraint_init children parents.

Definition RepeatConstraint_init (toks : list nat) (min_ max_ : option Z)
  : result Constraint :=
  match min_, max_ with
  | None, None => Raise AssertionError
  | _, _ => Ok (RepeatConstraint toks min_ max_)
  end.

Definition LengthConstraint_init (min_ max_ : option Z)
  : result Constraint :=
  match min_, max_ with
  | None, None => Raise AssertionError
  | _, _ => Ok (LengthConstraint min_ max_)
  end.

(** [ChildConstraint.__call__]. *)
Definition ChildConstraint_call (children : list nat)
    (adj_parents : list Z) (actions : ndarray2)
    (parent sibling dangling : list Z) : result matrix :=
  foldlM (λ prior '(c, adj_p),
            let mask := (λ p, bool_decide (p = adj_p)) <$> parent in
            m ← make_constraint mask [c];
            iadd prior m)
         (Prior_zeros actions) (zip children adj_parents).

(** [LengthConstraint.__call__]. *)
Definition LengthConstraint_call (min_ max_ : option Z)
    (actions : ndarray2) (parent sibling dangling : list Z)
  : result matrix :=
  let prior := Prior_zeros actions in
  let i := Z.of_nat (shape1 actions) - 1 in
  prior ← match max_ with
          | Some mx =>
              if bool_decide (mx `div` 2 ≤ i + 2) then
                let remaining := mx - (i + 1) in
                let mask :=
                  (λ d, bool_decide (remaining - 1 ≤ d)) <$> dangling in
                m ← make_constraint mask (binary_tokens lib);
                prior ← iadd prior m;
                let mask :=
                  (λ d, bool_decide (d = remaining)) <$> dangling in
                m ← make_constraint mask (unary_tokens lib);
                iadd prior m
              else Ok prior
          | None => Ok prior
          end;
  match min_ with
  | Some mn =>
      if bool_decide (i + 2 < mn) then
        let mask := (λ d, bool_decide (d = 1)) <$> dangling in
        m ← make_constraint mask (terminal_tokens lib);
        iadd prior m
      else Ok prior
  | None => Ok prior
  end.

(** [LengthConstraint.initial_prior]. *)
Definition LengthConstraint_initial_prior : result vector :=
  foldlM (λ prior t, setitem prior t neg_inf)
         Prior_initial_prior (terminal_tokens lib).

(** Method dispatch: [prior(actions, parent, sibling, dangling)]. *)
Definition call (c : Constraint) (actions : ndarray2)
    (parent sibling dangling : list Z) : result matrix :=
  match c with
  | DescendantConstraint _ _ => Raise NotImplementedError
  | ChildConstraint children _ adj_parents =>
      ChildConstraint_call children adj_parents
                           actions parent sibling dangling
  | RepeatConstraint _ _ _ => Raise NotImplementedError
  | LengthConstraint min_ max_ =>
      LengthConstraint_call min_ max_ actions parent sibling dangling
  end.

(** Method dispatch: [prior.initial_prior()]; only [LengthConstraint]
    overrides the method of [Prior]. *)
Definition initial_prior (c : Constraint) : result vector :=
  match c with
  | LengthConstraint _ _ => LengthConstraint_initial_prior
  | _ => Ok Prior_initial_prior
  end.

(** [JointPrior.initial_prior]. *)
Definition JointPrior_initial_prior (priors : list Constraint)
  : result vector :=
  foldlM (λ combined prior, v ← initial_prior prior; Ok (viadd combined v))
         (zeros (L lib)) priors.

(** [JointPrior.__call__]. *)
Definition JointPrior_call (priors : list Constraint)
    (actions : ndarray2) (parent sibling dangling : list Z)
  : result matrix :=
  let zero_prior := zeros2 (shape0 actions) (L lib) in
  ind_priors ← mapM (λ prior,
                       m ← call prior actions parent sibling dangling;
                       iadd zero_prior m) priors;
  Ok (acc_add (py_sum ind_priors) zero_prior).

(** The token indices of the library's index sets are tokens of the
    library. *)
Definition Library_wf : Prop :=
  Forall (λ t, (t < L lib)%nat) (terminal_tokens lib) ∧
  Forall (λ t, (t < L lib)%nat) (unary_tokens lib) ∧
  Forall (λ t, (t < L lib)%nat) (binary_tokens lib).

(** The token indices a constraint writes to are tokens of the library. *)
Definition Constraint_wf (c : Constraint) : Prop :=
  match c with
  | ChildConstraint children _ _ => Forall (λ t, (t < L lib)%nat) children
  | _ => True
  end.

(** The cells [LengthConstraint.__call__] forbids: token [t] in a row with
    dangling count [d], when the last chosen token has index [i]. *)
Definition LengthConstraint_forbids (min_ max_ : option Z) (i d : Z)
    (t : nat) : bool :=
  match max_ with
  | Some mx =>
      bool_decide (mx `div` 2 ≤ i + 2) &&
      (bool_decide (mx - (i + 1) - 1 ≤ d) &&
         bool_decide (t ∈ binary_tokens lib)
       || bool_decide (d = mx - (i + 1)) &&
          bool_decide (t ∈ unary_tokens lib))
  | None => false
  end
  || match min_ with
     | Some mn =>
         bool_decide (i + 2 < mn) &&
         (bool_decide (d = 1) && bool_decide (t ∈ terminal_tokens lib))
     | None => false
     end.

(** The cells [ChildConstraint.__call__] forbids: token [t] in a row whose
    adjusted parent is [p]. *)
Definition ChildConstraint_forbids (children : list nat)
    (adj_parents : list Z) (p : Z) (t : nat) : bool :=
  bool_decide ((t, p) ∈ zip children adj_parents).

(** The constraint classes whose [__call__] is not implemented. *)
Definition not_implemented (c : Constraint) : bool :=
  match c with
  | DescendantConstraint _ _ | RepeatConstraint _ _ _ => true
  | _ => false
  end.

Definition is_LengthConstraint (c : Constraint) : bool :=
  match c with
  | LengthConstraint _ _ => true
  | _ => false
  end.

(** The cells a constraint forbids at a step: token [t] of row [r]. *)
Definition Constraint_forbids (c : Constraint) (actions : ndarray2)
    (parent dangling : list Z) (r t : nat) : bool :=
  match c with
  | ChildConstraint children _ adj_parents =>
      from_option (λ p, ChildConstraint_forbids children adj_parents p t)
                  false (parent !! r)
  | LengthConstraint min_ max_ =>
      from_option (λ d, LengthConstraint_forbids min_ max_
                          (Z.of_nat (shape1 actions) - 1) d t)
                  false (dangling !! r)
  | _ => false
  end.

End WithLibrary.

(** *** make_prior *)

(** The keyword arguments of one entry of [config_prior]: for each keyword
    a constraint class knows, its value when the key is present, and the
    other keys. *)
Record kwargs : Set := {
  kw_min : option (option Z);
  kw_max : option (option Z);
  kw_tokens : option (list nat);
  kw_children : option (list nat);
  kw_parents : option (list nat);
  kw_descendants : option (list nat);
  kw_ancestors : option (list nat);
  kw_other : list string
}.

(** What a call with keyword arguments raises: the [TypeError] of a call
    whose keywords do not fit the signature, or what the body raises. *)
Inductive raised : Set :=
| TypeError
| Body (e : exn).

Inductive outcome (A : Type) : Type :=
| Returns (a : A)
| Raises (r : raised).
Arguments Returns {A} a.
Arguments Raises {A} r.

Definition of_result {A : Type} (r : result A) : outcome A :=
  match r with
  | Ok a => Returns a
  | Raise e => Raises (Body e)
  end.

Definition absent {A : Type} (o : option A) : bool :=
  match o with
  | None => true
  | Some _ => false
  end.

(** [prior_dict[prior_type](library, **prior_args)] for the five entries
    of [prior_dict]. *)
Definition construct (lib : Library) (prior_type : string) (kw : kwargs)
  : option (outcome Constraint) :=
  let no_other := match kw_other kw with [] => true | _ => false end in
  if String.eqb prior_type "length" then
    Some (if absent (kw_tokens kw) && absent (kw_children kw) &&
             absent (kw_parents kw) && absent (kw_descendants kw) &&
             absent (kw_ancestors kw) && no_other
          then of_result (LengthConstraint_init (default None (kw_min kw))
                                                (default None (kw_max kw)))
          else Raises TypeError)
  else if String.eqb prior_type "child" then
    Some (match kw_children kw, kw_parents kw with
          | Some children, Some parents =>
              if absent (kw_min kw) && absent (kw_max kw) &&
                 absent (kw_tokens kw) && absent (kw_descendants kw) &&
                 absent (kw_ancestors kw) && no_other
              then of_result (ChildConstraint_init lib children parents)
              else Raises TypeError
          | _, _ => Raises TypeError
          end)
  else if String.eqb prior_type "descendant" then
    Some (match kw_descendants kw, kw_ancestors kw with
          | Some descendants, Some ancestors =>
              if absent (kw_min kw) && absent (kw_max kw) &&
                 absent (kw_tokens kw) && absent (kw_children kw) &&
                 absent (kw_parents kw) && no_other
              then of_result
                     (DescendantConstraint_init lib descendants ancestors)
              else Raises TypeError
          | _, _ => Raises TypeError
          end)
  else if String.eqb prior_type "repeat" then
    Some (match kw_tokens kw with
          | Some toks =>
              if absent (kw_children kw) && absent (kw_parents kw) &&
                 absent (kw_descendants kw) && absent (kw_ancestors kw) &&
                 no_other
              then of_result (RepeatConstraint_init toks
                                (default None (kw_min kw))
                                (default None (kw_max kw)))
              else Raises TypeError
          | None => Raises TypeError
          end)
  else if String.eqb prior_type "inverse" then
    Some (if absent (kw_min kw) && absent (kw_max kw) &&
             absent (kw_tokens kw) && absent (kw_children kw) &&
             absent (kw_parents kw) && absent (kw_descendants kw) &&
             absent (kw_ancestors kw) && no_other
          then of_result (InverseUnaryConstraint_init lib)
          else Raises TypeError)
  else None.

(** The keys of [prior_dict]. *)
Definition prior_types : list string :=
  ["length"; "child"; "descendant"; "repeat"; "inverse"]%string.

(** The state of a [JointPrior]. *)
Record JointPrior : Set := {
  library : Library;
  priors : list Constraint
}.

(** The loop of [make_prior] over the items of [config_prior], with the
    priors built so far. *)
Fixpoint make_prior_loop (lib : Library) (config : list (string * kwargs))
    (built : list Constraint) : outcome (list Constraint) :=
  match config with
  | [] => Returns built
  | (prior_type, prior_args) :: config' =>
      match construct lib prior_type prior_args with
      | None => Raises (Body AssertionError)
      | Some (Raises r) => Raises r
      | Some (Returns prior) =>
          make_prior_loop lib config' (built ++ [prior])
      end
  end.

(** [make_prior]. *)
Definition make_prior (lib : Library) (config_prior : list (string * kwargs))
  : outcome JointPrior :=
  match make_prior_loop lib config_prior [] with
  | Returns built => Returns {| library := lib; priors := built |}
  | Raises r => Raises r
  end.

(** The entry of [prior_dict] a constraint is an instance of. *)
Definition built_by (prior_type : string) (c : Constraint) : Prop :=
  match c with
  | LengthConstraint _ _ => prior_type = "length"%string
  | ChildConstraint _ _ _ =>
      prior_type = "child"%string ∨ prior_type = "inverse"%string
  | DescendantConstraint _ _ => prior_type = "descendant"%string
  | RepeatConstraint _ _ _ => prior_type = "repeat"%string
  end.

End Prior.


(** ** dsr/gp/symbolic_math.py *)

Module SymbolicMath.

Definition TRIG_TOKENS : list string :=
  ["sin"; "cos"; "tan"; "csc"; "sec"; "cot"]%string.

(** A dict literal or comprehension: later items overwrite earlier ones. *)
Definition dict_of (items : list (string * string)) : gmap string string :=
  foldl (λ d kv, <[kv.1 := kv.2]> d) ∅ items.

(** [d.update(other)]. *)
Definition dict_update (d other : gmap string string) : gmap string string :=
  other ∪ d.

(** [INVERSE_TOKENS], after the two module-level updates. *)
Definition INVERSE_TOKENS : gmap string string :=
  let d0 := dict_of [("exp", "log"); ("neg", "neg"); ("inv", "inv");
                     ("sqrt", "n2")]%string in
  let d1 := dict_update d0
              (dict_of ((λ t, (t, ("arc" +:+ t)%string)) <$> TRIG_TOKENS)) in
  dict_update d1 (dict_of ((λ kv, (kv.2, kv.1)) <$> map_to_list d1)).

(** A node of a DEAP primitive tree, and an individual: the nodes in
    depth-first order. *)
Record node : Set := {
  node_name : string;
  node_arity : nat
}.

Abbreviation individual := (list node).

(** [check_inv]. *)
Definition check_inv (names : list string) : bool :=
  existsb (λ '(i, nm),
             match INVERSE_TOKENS !! nm with
             | Some inv => bool_decide (names !! (i + 1)%nat = Some inv)
             | None => false
             end)
          (imap pair (take (length names - 1) names)).

Section Tokens.
(** The token-name tables of [dsr.functions]. *)
Variables UNARY_TOKENS BINARY_TOKENS : list string.

(** The loop of [check_trig]; [trig_dangling] is read only while
    [trig_descendant] holds, that is after it was assigned. *)
Fixpoint check_trig_loop (names : list string) (trig_descendant : bool)
    (trig_dangling : Z) : bool :=
  match names with
  | [] => false
  | nm :: rest =>
      if bool_decide (nm ∈ TRIG_TOKENS) then
        if trig_descendant then true
        else check_trig_loop rest true 1
      else if trig_descendant then
        let trig_dangling :=
          if bool_decide (nm ∈ BINARY_TOKENS) then trig_dangling + 1
          else if bool_decide (nm ∉ UNARY_TOKENS) then trig_dangling - 1
          else trig_dangling in
        if bool_decide (trig_dangling = 0)
        then check_trig_loop rest false trig_dangling
        else check_trig_loop rest trig_descendant trig_dangling
      else check_trig_loop rest trig_descendant trig_dangling
  end.

(** [check_trig]. *)
Definition check_trig (names : list string) : bool :=
  check_trig_loop names false 0.

(** The tracker as the specification words it: a nesting flag and an
    open counter. Entering a trig token sets the flag and seeds the counter
    at 1; while the flag is set a binary token increments the counter, a
    token that is neither unary nor trig (nor binary) decrements it, and the
    flag clears when the counter reaches 0. *)
Record tracker : Set := {
  nesting : bool;
  open_count : Z
}.

Definition tracker_step (s : tracker) (nm : string) : tracker :=
  if bool_decide (nm ∈ TRIG_TOKENS) then {| nesting := true; open_count := 1 |}
  else if nesting s then
    let c := if bool_decide (nm ∈ BINARY_TOKENS) then open_count s + 1
             else if bool_decide (nm ∈ UNARY_TOKENS) then open_count s
             else open_count s - 1 in
    {| nesting := negb (bool_decide (c = 0)); open_count := c |}
  else s.

Definition tracker_after (scanned : list string) : tracker :=
  foldl tracker_step {| nesting := false; open_count := 0 |} scanned.

(** A trig token appears while an earlier trig token's subtree is open. *)
Definition trig_in_open_subtree (names : list string) : Prop :=
  ∃ scanned nm rest,
    names = scanned ++ nm :: rest ∧ nm ∈ TRIG_TOKENS ∧
    nesting (tracker_after scanned) = true.

(** Two adjacent tokens that are registered inverses. *)
Definition adjacent_inverses (names : list string) : Prop :=
  ∃ i a b, names !! i = Some a ∧ names !! S i = Some b ∧
           INVERSE_TOKENS !! a = Some b.

Section CheckConstraint.
Variables max_length min_length max_depth : Z.
(** The [height] attribute of a DEAP tree. *)
Variable height : individual → Z.
(** The wrapped operator, from the individuals it is given to the ones it
    returns. *)
Variable func : list individual → list individual.
(** The draws of the random generator, by draw number. *)
Variable draws : nat → nat.

(** [random.choice(seq)] at draw number [k]. *)
Definition random_choice (seq : list individual) (k : nat)
  : result (individual * nat) :=
  match seq !! (draws k `mod` length seq)%nat with
  | Some x => Ok (x, S k)
  | None => Raise IndexError
  end.

(** The body of the loop of [wrapper] for one returned individual. *)
Definition checked (keep_inds : list individual) (ind : individual) (k : nat)
  : result (individual * nat) :=
  let l := Z.of_nat (length ind) in
  if bool_decide (l > max_length) then random_choice keep_inds k
  else if bool_decide (l < min_length) then random_choice keep_inds k
  else if bool_decide (height ind > max_depth) then random_choice keep_inds k
  else
    let names := node_name <$> ind in
    if check_inv names then random_choice keep_inds k
    else if check_trig names then random_choice keep_inds k
    else Ok (ind, k).

Fixpoint wrapper_loop (keep_inds new_inds : list individual) (k : nat)
  : result (list individual * nat) :=
  match new_inds with
  | [] => Ok ([], k)
  | ind :: rest =>
      '(x, k') ← checked keep_inds ind k;
      '(xs, k'') ← wrapper_loop keep_inds rest k';
      Ok (x :: xs, k'')
  end.

(** The [wrapper] that [checkConstraint(max_length, min_length, max_depth)]
    puts around [func], called on positional arguments [args]:
    [keep_inds] holds the values of the arguments before [func] runs. *)
Definition wrapper (args : list individual) (k : nat)
  : result (list individual * nat) :=
  let keep_inds := args in
  let new_inds := func args in
  wrapper_loop keep_inds new_inds k.

(** The five checks of the decorator, as the specification lists them. *)
Definition passes_checks (ind : individual) : Prop :=
  Z.of_nat (length ind) ≤ max_length ∧
  min_length ≤ Z.of_nat (length ind) ∧
  height ind ≤ max_depth ∧
  ¬ adjacent_inverses (node_name <$> ind) ∧
  ¬ trig_in_open_subtree (node_name <$> ind).

End CheckConstraint.

(** [sub in s] on strings: [sub] occurs in [s]. *)
Fixpoint str_contains (sub s : string) : bool :=
  String.prefix sub s ||
  match s with
  | EmptyString => false
  | String _ s' => str_contains sub s'
  end.

(** [names[j]]. *)
Definition getitem (names : list string) (j : nat) : result string :=
  match names !! j with
  | Some nm => Ok nm
  | None => Raise IndexError
  end.

(** The two tests of the loop of [check_const] at index [i]: [Ok true]
    when one of them returns [True]; [and] evaluates its right operand only
    when the left one holds. *)
Definition check_const_step (names : list string) (i : nat) (nm : string)
  : result bool :=
  unary_hit ← (if bool_decide (nm ∈ UNARY_TOKENS)
               then n1 ← getitem names (i + 1); Ok (str_contains "const" n1)
               else Ok false);
  if (unary_hit : bool) then Ok true
  else if bool_decide (nm ∈ BINARY_TOKENS) then
    n1 ← getitem names (i + 1);
    if str_contains "const" n1
    then n2 ← getitem names (i + 2); Ok (str_contains "const" n2)
    else Ok false
  else Ok false.

Fixpoint check_const_loop (names : list string) (i : nat)
    (todo : list string) : result bool :=
  match todo with
  | [] => Ok false
  | nm :: todo' =>
      hit ← check_const_step names i nm;
      if (hit : bool) then Ok true else check_const_loop names (S i) todo'
  end.

(** [check_const]. *)
Definition check_const (ind : individual) : result bool :=
  let names := node_name <$> ind in
  check_const_loop names 0 names.

(** The name at index [j] exists and contains "const". *)
Definition const_at (names : list string) (j : nat) : bool :=
  from_option (str_contains "const") false (names !! j).

(** The name [nm] at index [i] is a unary token followed by a const name,
    or a binary token followed by two const names. *)
Definition const_children (names : list string) (i : nat) (nm : string)
  : bool :=
  bool_decide (nm ∈ UNARY_TOKENS) && const_at names (S i) ||
  bool_decide (nm ∈ BINARY_TOKENS) && const_at names (S i) &&
  const_at names (S (S i)).

Section PopConstraint.
(** The wrapped generator: the individual its [k]-th call returns. *)
Variable gen : nat → individual.

(** The loop of the [wrapper] of [popConstraint], which has no bound in
    the source: [None] when the fuel runs out, else the accepted individual
    and the number of calls made. *)
Fixpoint popConstraint_loop (fuel : nat) (k : nat)
  : option (individual * nat) :=
  match fuel with
  | O => None
  | S fuel' =>
      let inds := gen k in
      let names := node_name <$> inds in
      if check_inv names then popConstraint_loop fuel' (S k)
      else if check_trig names then popConstraint_loop fuel' (S k)
      else Some (inds, S k)
  end.

End PopConstraint.
End Tokens.

(** [generate_priors]: what is left of its loop updates [dangling]; the
    blocks that wrote to [priors] are string literals. *)
Definition generate_priors (lib : Prior.Library) (toks : list nat)
    (max_exp_length : nat) (expr_length max_const max_len min_len : Z)
  : result (list (list Numpy.float32)) :=
  let priors := Numpy.zeros2 max_exp_length (Prior.L lib) in
  _ ← foldlM (λ (dangling : Z) t,
                match Prior.tokens lib !! t with
                | Some tok => Ok (dangling + (Z.of_nat (Prior.arity tok) - 1))
                | None => Raise IndexError
                end) 1 toks;
  Ok priors.

(** [str.format] applied to the unpacked [args], for a template whose
    fields are all [{}]: [pieces] are the literal parts around the
    fields. *)
Fixpoint str_format (pieces : list string) (args : list string)
  : result string :=
  match pieces with
  | [] => Ok ""%string
  | [p] => Ok p
  | p :: ps =>
      match args with
      | a :: args' => s ← str_format ps args'; Ok (p +:+ a +:+ s)
      | [] => Raise IndexError
      end
  end.

Section Stringify.
(** The [format] method of a DEAP primitive or terminal. *)
Variable prim_format : node → list string → result string.

(** The [converter] table of [convert_inverse_prim]. *)
Definition converter (nm : string) : option (list string) :=
  if String.eqb nm "sub" then Some ["Add("; ", Mul(-1,"; "))"]%string
  else if String.eqb nm "protectedDiv"
       then Some ["Mul("; ", Pow("; ", -1))"]%string
  else if String.eqb nm "div" then Some ["Mul("; ", Pow("; ", -1))"]%string
  else if String.eqb nm "mul" then Some ["Mul("; ","; ")"]%string
  else if String.eqb nm "add" then Some ["Add("; ","; ")"]%string
  else if String.eqb nm "inv" then Some ["Pow(-1)"]%string
  else if String.eqb nm "neg" then Some ["Mul(-1)"]%string
  else None.

(** [convert_inverse_prim]. *)
Definition convert_inverse_prim (prim : node) (args : list string)
  : result string :=
  match converter (node_name prim) with
  | Some pieces => str_format pieces args
  | None => prim_format prim args
  end.

(** The [while] loop of [stringify_for_sympy] with the top of the stack
    [(prim, args)] and the rest of the stack below it: it returns the new
    stack and [string]. *)
Fixpoint unwind (prim : node) (args : list string)
    (below : list (node * list string)) (str : string)
  : result (list (node * list string) * string) :=
  if bool_decide (length args = node_arity prim) then
    str' ← convert_inverse_prim prim args;
    match below with
    | [] => Ok ([], str')
    | (prim', args') :: below' => unwind prim' (args' ++ [str']) below' str'
    end
  else Ok ((prim, args) :: below, str).

(** What the loop does with the string [s] of a finished operand: it is the
    result when the stack is empty, else it is appended to the operands of
    the node on top, which is then examined. *)
Definition deliver (stack : list (node * list string)) (s : string)
  : result (list (node * list string) * string) :=
  match stack with
  | [] => Ok ([], s)
  | (prim, args) :: below => unwind prim (args ++ [s]) below s
  end.

(** [stringify_for_sympy]. *)
Definition stringify_for_sympy (f : individual) : result string :=
  st ← foldlM (λ '(stack, str) nd, unwind nd [] stack str) ([], ""%string) f;
  Ok st.2.

End Stringify.

(** An expression tree and the list of its nodes in depth-first order,
    which is how a DEAP individual stores it. *)
#[local] Unset Elimination Schemes.
Inductive tree : Set :=
| Tree (root : node) (children : list tree).
#[local] Set Elimination Schemes.

Fixpoint flatten (t : tree) : individual :=
  match t with
  | Tree nd cs =>
      nd :: (fix flatten_all (cs : list tree) : individual :=
               match cs with
               | [] => []
               | c :: cs' => flatten c ++ flatten_all cs'
               end) cs
  end.

Definition flatten_all (cs : list tree) : individual :=
  (fix flatten_all (cs : list tree) : individual :=
     match cs with
     | [] => []
     | c :: cs' => flatten c ++ flatten_all cs'
     end) cs.

(** Every node of the tree, with the number of its children, satisfies
    [P]. *)
Fixpoint tree_all (P : node → nat → Prop) (t : tree) : Prop :=
  match t with
  | Tree nd cs =>
      P nd (length cs) ∧
      (fix all (cs : list tree) : Prop :=
         match cs with
         | [] => True
         | c :: cs' => tree_all P c ∧ all cs'
         end) cs
  end.

(** Every node has as many children as its arity. *)
Definition well_formed : tree → Prop :=
  tree_all (λ nd n, node_arity nd = n).

(** The tree has a trigonometric node. *)
Fixpoint has_trig (t : tree) : bool :=
  match t with
  | Tree nd cs =>
      bool_decide (node_name nd ∈ TRIG_TOKENS) ||
      (fix any (cs : list tree) : bool :=
         match cs with
         | [] => false
         | c :: cs' => has_trig c || any cs'
         end) cs
  end.

(** The tree has a trigonometric node below a trigonometric node. *)
Fixpoint trig_nested (t : tree) : bool :=
  match t with
  | Tree nd cs =>
      (bool_decide (node_name nd ∈ TRIG_TOKENS) && existsb has_trig cs) ||
      (fix any (cs : list tree) : bool :=
         match cs with
         | [] => false
         | c :: cs' => trig_nested c || any cs'
         end) cs
  end.

(** The arity of a node is the one its name has in the token tables:
    trigonometric and other unary names take one operand, binary names two,
    every other name none. *)
Definition arity_of_name (UNARY_TOKENS BINARY_TOKENS : list string)
    (nm : string) : nat :=
  if bool_decide (nm ∈ TRIG_TOKENS) then 1
  else if bool_decide (nm ∈ BINARY_TOKENS) then 2
  else if bool_decide (nm ∈ UNARY_TOKENS) then 1
  else 0.

Definition tabled (UNARY_TOKENS BINARY_TOKENS : list string) : tree → Prop :=
  tree_all (λ nd _, node_arity nd =
                    arity_of_name UNARY_TOKENS BINARY_TOKENS (node_name nd)).

Section Render.
Variable prim_format : node → list string → result string.

(** The recursive rendering of a tree: the operands, then the node. *)
Fixpoint render (t : tree) : result string :=
  match t with
  | Tree nd cs =>
      args ← (fix render_all (cs : list tree) : result (list string) :=
                match cs with
                | [] => Ok []
                | c :: cs' =>
                    s ← render c; ss ← render_all cs'; Ok (s :: ss)
                end) cs;
      convert_inverse_prim prim_format nd args
  end.

Definition render_all (cs : list tree) : result (list string) :=
  (fix render_all (cs : list tree) : result (list string) :=
     match cs with
     | [] => Ok []
     | c :: cs' => s ← render c; ss ← render_all cs'; Ok (s :: ss)
     end) cs.

End Render.

End SymbolicMath.


(** ** The libraries and inputs of the specification's scenarios *)

Module Scenarios.
Import Numpy Prior.
Local Open Scope string_scope.

(** Scenarios A and B: const, x1, add, sin. *)
Definition lib_AB : Library := {|
  tokens := [ {| name := "const"; arity := 0 |}; {| name := "x1"; arity := 0 |};
              {| name := "add"; arity := 2 |}; {| name := "sin"; arity := 1 |} ];
  terminal_tokens := [0; 1]%nat;
  unary_tokens := [3]%nat;
  binary_tokens := [2]%nat;
  parent_adjust := [-1; -1; 0; 1];
  inverse_tokens := []
|}.

(** Scenario B: one row, after [add] then [x1]. *)
Definition actions_B : ndarray2 :=
  {| shape0 := 1; shape1 := 2; items := [[2; 1]] |}.

(** Scenario C: x1, add, exp, log, with exp and log inverse of each
    other. *)
Definition lib_C : Library := {|
  tokens := [ {| name := "x1"; arity := 0 |}; {| name := "add"; arity := 2 |};
              {| name := "exp"; arity := 1 |}; {| name := "log"; arity := 1 |} ];
  terminal_tokens := [0]%nat;
  unary_tokens := [2; 3]%nat;
  binary_tokens := [1]%nat;
  parent_adjust := [-1; 0; 1; 2];
  inverse_tokens := [(2, 3); (3, 2)]%nat
|}.

(** Scenario C: one row, after [exp]. *)
Definition actions_C : ndarray2 :=
  {| shape0 := 1; shape1 := 1; items := [[2]] |}.

(** Scenario D: an operator given [sin x1] that returns the nested
    [sin cos x1] and the valid [sin x1]. *)
Definition unary_names : list string := ["sin"; "cos"; "exp"; "log"].
Definition binary_names : list string := ["add"; "mul"].

Definition sin_x1 : list SymbolicMath.node :=
  [ {| SymbolicMath.node_name := "sin"; SymbolicMath.node_arity := 1 |};
    {| SymbolicMath.node_name := "x1"; SymbolicMath.node_arity := 0 |} ].

Definition sin_cos_x1 : list SymbolicMath.node :=
  [ {| SymbolicMath.node_name := "sin"; SymbolicMath.node_arity := 1 |};
    {| SymbolicMath.node_name := "cos"; SymbolicMath.node_arity := 1 |};
    {| SymbolicMath.node_name := "x1"; SymbolicMath.node_arity := 0 |} ].

Definition nesting_operator (args : list (list SymbolicMath.node))
  : list (list SymbolicMath.node) := [sin_cos_x1; sin_x1].

(** A generator whose first individual is nested and whose later ones are
    valid. *)
Definition nested_then_valid (k : nat) : list SymbolicMath.node :=
  match k with
  | O => sin_cos_x1
  | S _ => sin_x1
  end.

(** The height of a chain of unary nodes over a leaf. *)
Definition chain_height (ind : list SymbolicMath.node) : Z :=
  Z.of_nat (length ind) - 1.

(** Keyword arguments: the empty dict and [{"min_": 4, "max_": 30}]. *)
Definition no_kwargs : Prior.kwargs := {|
  Prior.kw_min := None; Prior.kw_max := None; Prior.kw_tokens := None;
  Prior.kw_children := None; Prior.kw_parents := None;
  Prior.kw_descendants := None; Prior.kw_ancestors := None;
  Prior.kw_other := []
|}.

Definition length_kwargs : Prior.kwargs := {|
  Prior.kw_min := Some (Some 4); Prior.kw_max := Some (Some 30);
  Prior.kw_tokens := None;
  Prior.kw_children := None; Prior.kw_parents := None;
  Prior.kw_descendants := None; Prior.kw_ancestors := None;
  Prior.kw_other := []
|}.

(** Trees: sin(cos(x1)), add(sin(x1), cos(x1)), sub(x1, neg(x1)) and
    neg(x1). *)
Definition nd (nm : string) (a : nat) : SymbolicMath.node :=
  {| SymbolicMath.node_name := nm; SymbolicMath.node_arity := a |}.

Definition leaf_x1 : SymbolicMath.tree := SymbolicMath.Tree (nd "x1" 0) [].

Definition tree_sin_cos_x1 : SymbolicMath.tree :=
  SymbolicMath.Tree (nd "sin" 1) [SymbolicMath.Tree (nd "cos" 1) [leaf_x1]].

Definition tree_add_sin_cos : SymbolicMath.tree :=
  SymbolicMath.Tree (nd "add" 2)
    [SymbolicMath.Tree (nd "sin" 1) [leaf_x1];
     SymbolicMath.Tree (nd "cos" 1) [leaf_x1]].

Definition tree_neg_x1 : SymbolicMath.tree :=
  SymbolicMath.Tree (nd "neg" 1) [leaf_x1].

Definition tree_sub_x1_neg : SymbolicMath.tree :=
  SymbolicMath.Tree (nd "sub" 2) [leaf_x1; tree_neg_x1].

(** The [format] of DEAP nodes on these trees: a terminal prints its name,
    a primitive its name and its operands in parentheses. *)
Definition deap_format (prim : SymbolicMath.node) (args : list string)
  : result string :=
  match args with
  | [] => Ok (SymbolicMath.node_name prim)
  | a :: args' =>
      Ok (SymbolicMath.node_name prim +:+ "(" +:+
          foldl (λ acc b, acc +:+ ", " +:+ b) a args' +:+ ")")
  end.

End Scenarios.


(** * Properties *)

Import Numpy Prior SymbolicMath.

(** ** The error monad *)

Lemma bind_Ok {A B : Type} (f : A → result B) (a : A) : Ok a ≫= f = f a.
Proof. reflexivity. Qed.

Lemma bind_Raise {A B : Type} (f : A → result B) (e : exn) :
  Raise e ≫= f = Raise e.
Proof. reflexivity. Qed.

Lemma bind_Ok_inv {A B : Type} (f : A → result B) (r : result A) (b : B) :
  r ≫= f = Ok b → ∃ a, r = Ok a ∧ f a = Ok b.
Proof. destruct r as [a|e]; [eauto | discriminate]. Qed.

(** ** The algebra of hard masks *)

Section MaskAlgebra.

Lemma f32_add_flag (a b : bool) : f32_add (flag a) (flag b) = flag (a || b).
Proof. by destruct a, b. Qed.

Lemma f32_add_zero_flag (a : bool) : f32_add f32_zero (flag a) = flag a.
Proof. by destruct a. Qed.

Lemma hard_flag (a : bool) : hard (flag a).
Proof. destruct a; [by right | by left]. Qed.

Lemma hard_is_flag (x : float32) : hard x → ∃ a, x = flag a.
Proof. intros [->| ->]; [by exists false | by exists true]. Qed.

Lemma hard_add (x y : float32) : hard x → hard y → hard (f32_add x y).
Proof.
  intros [a ->]%hard_is_flag [b ->]%hard_is_flag.
  rewrite f32_add_flag. apply hard_flag.
Qed.

Lemma length_row_of n f : length (row_of n f) = n.
Proof. unfold row_of. by rewrite length_fmap, length_seq. Qed.

Lemma length_mask_of b n f : length (mask_of b n f) = b.
Proof. unfold mask_of. by rewrite length_fmap, length_seq. Qed.

Lemma lookup_row_of n f (t : nat) :
  (t < n)%nat → row_of n f !! t = Some (flag (f t)).
Proof.
  intros Ht. unfold row_of.
  by rewrite list_lookup_fmap, lookup_seq_lt.
Qed.

Lemma lookup_row_of_ge n f (t : nat) : (n ≤ t)%nat → row_of n f !! t = None.
Proof. intros Ht. apply lookup_ge_None_2. by rewrite length_row_of. Qed.

Lemma lookup_mask_of b n f (r : nat) :
  (r < b)%nat → mask_of b n f !! r = Some (row_of n (f r)).
Proof.
  intros Hr. unfold mask_of.
  by rewrite list_lookup_fmap, lookup_seq_lt.
Qed.

Lemma cell_mask_of b n f (r t : nat) :
  (r < b)%nat → (t < n)%nat → cell (mask_of b n f) r t = Some (flag (f r t)).
Proof.
  intros Hr Ht. unfold cell.
  rewrite lookup_mask_of by done. simpl. by apply lookup_row_of.
Qed.

Lemma row_of_ext n f g :
  (∀ t, (t < n)%nat → f t = g t) → row_of n f = row_of n g.
Proof.
  intros Hfg. unfold row_of. apply list_eq. intros t.
  rewrite !list_lookup_fmap.
  destruct (decide (t < n)%nat) as [Ht|Ht].
  - rewrite lookup_seq_lt by done. simpl. by rewrite Hfg.
  - by rewrite lookup_seq_ge by lia.
Qed.

Lemma mask_of_ext b n f g :
  (∀ r t, (r < b)%nat → (t < n)%nat → f r t = g r t) →
  mask_of b n f = mask_of b n g.
Proof.
  intros Hfg. unfold mask_of. apply list_eq. intros r.
  rewrite !list_lookup_fmap.
  destruct (decide (r < b)%nat) as [Hr|Hr].
  - rewrite lookup_seq_lt by done. simpl. f_equal.
    apply row_of_ext. intros t Ht. by apply Hfg.
  - by rewrite lookup_seq_ge by lia.
Qed.

Lemma zeros_row_of n : zeros n = row_of n (λ _, false).
Proof.
  unfold zeros, row_of. apply list_eq. intros t.
  rewrite list_lookup_fmap.
  destruct (decide (t < n)%nat) as [Ht|Ht].
  - rewrite lookup_replicate_2, lookup_seq_lt by done. done.
  - rewrite lookup_seq_ge by lia.
    apply lookup_replicate_None. lia.
Qed.

Lemma zeros2_mask_of b n : zeros2 b n = mask_of b n (λ _ _, false).
Proof.
  unfold zeros2, mask_of. rewrite zeros_row_of. apply list_eq. intros r.
  rewrite list_lookup_fmap.
  destruct (decide (r < b)%nat) as [Hr|Hr].
  - rewrite lookup_replicate_2, lookup_seq_lt by done. done.
  - rewrite lookup_seq_ge by lia.
    apply lookup_replicate_None. lia.
Qed.

Lemma row_add n f g :
  zip_with f32_add (row_of n f) (row_of n g) = row_of n (λ t, f t || g t).
Proof.
  unfold row_of. rewrite zip_with_fmap_l, zip_with_fmap_r, zip_with_diag.
  apply list_fmap_ext. intros _ t _. apply f32_add_flag.
Qed.

Lemma mask_add b n f g :
  madd (mask_of b n f) (mask_of b n g) = mask_of b n (λ r t, f r t || g r t).
Proof.
  unfold madd, mask_of.
  rewrite zip_with_fmap_l, zip_with_fmap_r, zip_with_diag.
  apply list_fmap_ext. intros _ r _. apply row_add.
Qed.

Lemma row_insert n f (t : nat) :
  <[t := neg_inf]> (row_of n f) = row_of n (λ t', f t' || bool_decide (t' = t)).
Proof.
  apply list_eq. intros t'.
  destruct (decide (t' < n)%nat) as [Ht'|Ht'].
  - rewrite lookup_row_of by done.
    destruct (decide (t' = t)) as [->|Hne].
    + rewrite list_lookup_insert_eq by (by rewrite length_row_of).
      rewrite bool_decide_true by done. by rewrite orb_true_r.
    + rewrite list_lookup_insert_ne by done.
      rewrite lookup_row_of by done.
      rewrite bool_decide_false by done. by rewrite orb_false_r.
  - rewrite lookup_row_of_ge by lia.
    apply lookup_ge_None_2. rewrite length_insert, length_row_of. lia.
Qed.

End MaskAlgebra.

(** ** numpy operations on hard masks *)

Section MaskOperations.

Lemma at_row_fmap {A : Type} (p : A → bool) (l : list A) (r : nat) :
  at_row (p <$> l) r = from_option p false (l !! r).
Proof. unfold at_row. rewrite list_lookup_fmap. by destruct (l !! r). Qed.

Lemma setitem_mask_mask_of n (mask : list bool) f (t : nat) :
  setitem_mask n (mask_of (length mask) n f) mask t neg_inf =
  if bool_decide (t < n)%nat
  then Ok (mask_of (length mask) n
             (λ r t', f r t' || (at_row mask r && bool_decide (t' = t))))
  else Raise IndexError.
Proof.
  unfold setitem_mask. case_bool_decide; [|done]. f_equal.
  apply list_eq. intros r. rewrite lookup_zip_with.
  destruct (decide (r < length mask)%nat) as [Hr|Hr].
  - rewrite !lookup_mask_of by done.
    destruct (lookup_lt_is_Some_2 mask r Hr) as [b Hb].
    rewrite Hb. simpl. f_equal. unfold at_row. rewrite Hb. simpl.
    destruct b.
    + rewrite row_insert. by apply row_of_ext.
    + apply row_of_ext. intros t' _. by rewrite orb_false_r.
  - rewrite (lookup_ge_None_2 mask) by lia. simpl.
    symmetry. apply lookup_ge_None_2. rewrite length_mask_of. lia.
Qed.

Lemma foldlM_setitem_mask n (mask : list bool) (toks : list nat) f :
  foldlM (λ prior t, setitem_mask n prior mask t neg_inf)
         (mask_of (length mask) n f) toks =
  if bool_decide (Forall (λ t, (t < n)%nat) toks)
  then Ok (mask_of (length mask) n
             (λ r t, f r t || (at_row mask r && bool_decide (t ∈ toks))))
  else Raise IndexError.
Proof.
  revert f. induction toks as [|t toks IH]; intros f; cbn [foldlM].
  - rewrite bool_decide_true by constructor. f_equal.
    apply mask_of_ext. intros r t' _ _.
    rewrite (bool_decide_false (t' ∈ [])) by apply not_elem_of_nil.
    by rewrite andb_false_r, orb_false_r.
  - rewrite setitem_mask_mask_of.
    destruct (decide (t < n)%nat) as [Ht|Ht].
    + rewrite (bool_decide_true (t < n)%nat), bind_Ok by done.
      rewrite IH.
      destruct (decide (Forall (λ t0, (t0 < n)%nat) toks)) as [Hall|Hall].
      * rewrite !bool_decide_true by (done || by constructor). f_equal.
        apply mask_of_ext. intros r t' _ _.
        rewrite (bool_decide_ext (t' ∈ t :: toks) (t' = t ∨ t' ∈ toks))
          by apply elem_of_cons.
        rewrite bool_decide_or. by destruct (f r t'), (at_row mask r),
          (bool_decide (t' = t)), (bool_decide (t' ∈ toks)).
      * rewrite !bool_decide_false; [done| |done].
        intros Hall'. apply Hall. by inversion Hall'.
    + rewrite (bool_decide_false (t < n)%nat), bind_Raise by done.
      rewrite bool_decide_false; [done|].
      intros Hall'. apply Ht. by inversion Hall'.
Qed.

Lemma make_constraint_mask_of lib (mask : list bool) (toks : list nat) :
  make_constraint lib mask toks =
  if bool_decide (Forall (λ t, (t < L lib)%nat) toks)
  then Ok (mask_of (length mask) (L lib)
             (λ r t, at_row mask r && bool_decide (t ∈ toks)))
  else Raise IndexError.
Proof.
  unfold make_constraint. rewrite zeros2_mask_of.
  by rewrite foldlM_setitem_mask.
Qed.

Lemma mask_of_one n g : mask_of 1 n g = [row_of n (g 0%nat)].
Proof. reflexivity. Qed.

Lemma iadd_mask_of b b' n f g :
  iadd (mask_of b n f) (mask_of b' n g) =
  if bool_decide (b' = b)
  then Ok (mask_of b n (λ r t, f r t || g r t))
  else if bool_decide (b' = 1%nat)
       then Ok (mask_of b n (λ r t, f r t || g 0%nat t))
       else Raise ValueError.
Proof.
  unfold iadd. rewrite !length_mask_of.
  case_bool_decide as Hb; [subst b'; by rewrite mask_add|].
  case_bool_decide as Hb1.
  - subst b'. rewrite mask_of_one. f_equal.
    unfold mask_of at 1 2. rewrite <- list_fmap_compose.
    apply list_fmap_ext. intros _ r _. simpl. apply row_add.
  - destruct b' as [|[|b']]; [done|done|done].
Qed.

Lemma iadd_mask_of_same b n f g :
  iadd (mask_of b n f) (mask_of b n g) =
  Ok (mask_of b n (λ r t, f r t || g r t)).
Proof. rewrite iadd_mask_of. by rewrite bool_decide_true. Qed.

End MaskOperations.

(** ** The masks of the constraints, in closed form *)

Section ConstraintMasks.
Variable lib : Library.

Lemma LengthConstraint_call_mask_of mn mx actions parent sibling dangling :
  Library_wf lib →
  length dangling = shape0 actions →
  LengthConstraint_call lib mn mx actions parent sibling dangling =
  Ok (mask_of (shape0 actions) (L lib)
        (λ r t, from_option
                  (λ d, LengthConstraint_forbids lib mn mx
                          (Z.of_nat (shape1 actions) - 1) d t)
                  false (dangling !! r))).
Proof.
  intros (Hterm & Hun & Hbin) Hlen.
  unfold LengthConstraint_call, Prior_zeros, LengthConstraint_forbids.
  rewrite zeros2_mask_of.
  set (i := Z.of_nat (shape1 actions) - 1).
  destruct mx as [mx|], mn as [mn|];
    repeat first
      [ rewrite bind_Ok
      | rewrite make_constraint_mask_of, length_fmap, Hlen
      | rewrite bool_decide_true by done
      | rewrite iadd_mask_of_same
      | case_bool_decide ];
    f_equal; apply mask_of_ext; intros r t _ _;
    rewrite ?at_row_fmap; destruct (dangling !! r) as [d|]; simpl;
    rewrite ?andb_false_r, ?orb_false_r; done.
Qed.

Lemma ChildConstraint_loop_mask_of (parent : list Z) (pairs : list (nat * Z)) f :
  Forall (λ cp, (cp.1 < L lib)%nat) pairs →
  foldlM (λ prior '(c, adj_p),
            m ← make_constraint lib
                  ((λ p, bool_decide (p = adj_p)) <$> parent) [c];
            iadd prior m)
         (mask_of (length parent) (L lib) f) pairs =
  Ok (mask_of (length parent) (L lib)
        (λ r t, f r t ||
                from_option (λ p, bool_decide ((t, p) ∈ pairs)) false
                            (parent !! r))).
Proof.
  revert f. induction pairs as [|[c adj_p] pairs IH]; intros f Hwf;
    cbn [foldlM].
  - f_equal. apply mask_of_ext. intros r t _ _.
    destruct (parent !! r); cbn [from_option]; [|by rewrite orb_false_r].
    rewrite bool_decide_false by apply not_elem_of_nil.
    by rewrite orb_false_r.
  - inversion Hwf as [|? ? Hc Hwf']; subst. simpl in Hc.
    rewrite make_constraint_mask_of.
    rewrite bool_decide_true by (by repeat constructor).
    rewrite bind_Ok, length_fmap, iadd_mask_of_same, bind_Ok.
    rewrite IH by done. f_equal.
    apply mask_of_ext. intros r t _ _. rewrite at_row_fmap.
    destruct (parent !! r) as [p|]; cbn [from_option];
      [|by rewrite !orb_false_r].
    rewrite (bool_decide_ext ((t, p) ∈ (c, adj_p) :: pairs)
               ((t, p) = (c, adj_p) ∨ (t, p) ∈ pairs)) by apply elem_of_cons.
    rewrite bool_decide_or, <- orb_assoc. f_equal. f_equal.
    rewrite (bool_decide_ext (t ∈ [c]) (t = c)) by apply list_elem_of_singleton.
    rewrite <- bool_decide_and. apply bool_decide_ext.
    split; [by intros [-> ->] | by intros [= -> ->]].
Qed.

Lemma ChildConstraint_call_mask_of children adj_parents actions
    parent sibling dangling :
  Forall (λ t, (t < L lib)%nat) children →
  length parent = shape0 actions →
  ChildConstraint_call lib children adj_parents actions parent sibling dangling =
  Ok (mask_of (shape0 actions) (L lib)
        (λ r t, from_option
                  (λ p, ChildConstraint_forbids children adj_parents p t)
                  false (parent !! r))).
Proof.
  intros Hwf Hlen. unfold ChildConstraint_call, Prior_zeros.
  rewrite zeros2_mask_of, <- Hlen.
  rewrite ChildConstraint_loop_mask_of; [done|].
  apply Forall_forall. intros [c p] Hin. simpl.
  apply elem_of_zip_l in Hin.
  by eapply (proj1 (Forall_forall _ _) Hwf).
Qed.

End ConstraintMasks.

(** ** Length constraint *)

Section LengthConstraintProperties.
Variable lib : Library.

Lemma Library_wf_terminal (t : nat) :
  Library_wf lib → t ∈ terminal_tokens lib → (t < L lib)%nat.
Proof. intros (H & _ & _) Ht. by eapply (proj1 (Forall_forall _ _) H). Qed.

(** C1: with [min_length] set, at a step with [i + 2 < min_length] every
    row whose dangling count is 1 gets -inf at every terminal token; in the
    rows with another dangling count, and at the steps with
    [i + 2 >= min_length], a terminal token gets 0 (the maximum-length rule
    being unset, or the token not being also listed as unary or binary). *)
Theorem LengthConstraint_min_length_rule
    (mn : Z) (mx : option Z) (actions : ndarray2)
    (parent sibling dangling : list Z) :
  Library_wf lib →
  length dangling = shape0 actions →
  let i := Z.of_nat (shape1 actions) - 1 in
  ∃ m,
    LengthConstraint_call lib (Some mn) mx actions parent sibling dangling
      = Ok m ∧
    ∀ (r : nat) (d : Z) (t : nat),
      dangling !! r = Some d → t ∈ terminal_tokens lib →
      (i + 2 < mn → d = 1 → cell m r t = Some neg_inf) ∧
      (mn ≤ i + 2 ∨ d ≠ 1 →
       mx = None ∨ ((t ∉ binary_tokens lib) ∧ (t ∉ unary_tokens lib)) →
       cell m r t = Some f32_zero).
Proof.
  intros Hwf Hlen i. eexists. split.
  { by apply LengthConstraint_call_mask_of. }
  intros r d t Hd Ht.
  assert (r < shape0 actions)%nat as Hr
    by (rewrite <- Hlen; by eapply lookup_lt_Some).
  pose proof (Library_wf_terminal t Hwf Ht) as HtL.
  rewrite cell_mask_of, Hd by done. cbn [from_option].
  unfold LengthConstraint_forbids. fold i.
  rewrite (bool_decide_true (t ∈ terminal_tokens lib)) by done.
  split.
  - intros Hi ->.
    rewrite (bool_decide_true (i + 2 < mn)), (bool_decide_true (1 = 1))
      by done.
    by rewrite orb_true_r.
  - intros Hoff Hmax.
    replace (bool_decide (i + 2 < mn) && (bool_decide (d = 1) && true))
      with false
      by (destruct Hoff; [rewrite (bool_decide_false (i + 2 < mn)) by lia
                         |rewrite (bool_decide_false (d = 1)) by done];
          by rewrite ?andb_false_r).
    destruct Hmax as [->|[Hb Hu]]; [done|].
    destruct mx as [mx'|]; [|done].
    rewrite (bool_decide_false (t ∈ binary_tokens lib)) by done.
    rewrite (bool_decide_false (t ∈ unary_tokens lib)) by done.
    by rewrite !andb_false_r.
Qed.

(** C2: with [max_length] set, at a step with
    [i + 2 >= max_length // 2] and [remaining = max_length - (i + 1)], a
    binary token gets -inf in exactly the rows with
    [dangling >= remaining - 1] and a unary token in exactly the rows with
    [dangling == remaining], and 0 in the other rows; at a step with
    [i + 2 < max_length // 2] every token gets 0 (in each case on the cells
    the minimum-length rule does not write to). *)
Theorem LengthConstraint_max_length_rule
    (mn : option Z) (mx : Z) (actions : ndarray2)
    (parent sibling dangling : list Z) :
  Library_wf lib →
  length dangling = shape0 actions →
  let i := Z.of_nat (shape1 actions) - 1 in
  let remaining := mx - (i + 1) in
  ∃ m,
    LengthConstraint_call lib mn (Some mx) actions parent sibling dangling
      = Ok m ∧
    ∀ (r : nat) (d : Z) (t : nat),
      dangling !! r = Some d → (t < L lib)%nat →
      mn = None ∨ (t ∉ terminal_tokens lib) →
      (mx `div` 2 ≤ i + 2 → t ∈ binary_tokens lib →
       cell m r t = Some (if decide (remaining - 1 ≤ d)
                          then neg_inf else f32_zero)) ∧
      (mx `div` 2 ≤ i + 2 → t ∈ unary_tokens lib → t ∉ binary_tokens lib →
       cell m r t = Some (if decide (d = remaining)
                          then neg_inf else f32_zero)) ∧
      (i + 2 < mx `div` 2 → cell m r t = Some f32_zero).
Proof.
  intros Hwf Hlen i remaining. eexists. split.
  { by apply LengthConstraint_call_mask_of. }
  intros r d t Hd HtL Hmin.
  assert (r < shape0 actions)%nat as Hr
    by (rewrite <- Hlen; by eapply lookup_lt_Some).
  rewrite cell_mask_of, Hd by done. cbn [from_option].
  unfold LengthConstraint_forbids. fold i. fold remaining.
  replace (match mn with
           | Some mn0 =>
               bool_decide (i + 2 < mn0) &&
               (bool_decide (d = 1) && bool_decide (t ∈ terminal_tokens lib))
           | None => false
           end) with false
    by (destruct Hmin as [->|Hnt]; [done|]; destruct mn; [|done];
        rewrite (bool_decide_false (t ∈ terminal_tokens lib)) by done;
        by rewrite !andb_false_r).
  rewrite orb_false_r.
  split; [|split].
  - intros Hi Hb. rewrite (bool_decide_true (_ ≤ i + 2)) by done.
    rewrite (bool_decide_true (t ∈ binary_tokens lib)) by done.
    rewrite andb_true_l, andb_true_r.
    destruct (decide (remaining - 1 ≤ d)) as [Hd'|Hd'].
    + by rewrite (bool_decide_true (remaining - 1 ≤ d)) by done.
    + rewrite (bool_decide_false (remaining - 1 ≤ d)) by done.
      rewrite (bool_decide_false (d = remaining)) by lia. done.
  - intros Hi Hu Hb. rewrite (bool_decide_true (_ ≤ i + 2)) by done.
    rewrite (bool_decide_false (t ∈ binary_tokens lib)) by done.
    rewrite (bool_decide_true (t ∈ unary_tokens lib)) by done.
    rewrite andb_true_l, andb_false_r, andb_true_r, orb_false_l.
    destruct (decide (d = remaining)) as [Hd'|Hd'].
    + by rewrite bool_decide_true by done.
    + by rewrite bool_decide_false by done.
  - intros Hi. by rewrite (bool_decide_false (_ ≤ i + 2)) by lia.
Qed.

End LengthConstraintProperties.

Import Scenarios.

Lemma lib_AB_wf : Library_wf lib_AB.
Proof. repeat split; repeat constructor. Defined.

Lemma LengthConstraint_min_length_rule_witness :
  let i := Z.of_nat (shape1 actions_B) - 1 in
  ∃ m,
    LengthConstraint_call lib_AB (Some 4) None actions_B [0] [0] [1] = Ok m ∧
    ∀ (r : nat) (d : Z) (t : nat),
      [1] !! r = Some d → t ∈ terminal_tokens lib_AB →
      (i + 2 < 4 → d = 1 → cell m r t = Some neg_inf) ∧
      (4 ≤ i + 2 ∨ d ≠ 1 →
       (None : option Z) = None ∨
       ((t ∉ binary_tokens lib_AB) ∧ (t ∉ unary_tokens lib_AB)) →
       cell m r t = Some f32_zero).
Proof.
  apply (LengthConstraint_min_length_rule lib_AB 4 None actions_B [0] [0] [1]).
  - exact lib_AB_wf.
  - reflexivity.
Defined.

Lemma LengthConstraint_max_length_rule_witness :
  let i := Z.of_nat (shape1 actions_B) - 1 in
  let remaining := 6 - (i + 1) in
  ∃ m,
    LengthConstraint_call lib_AB None (Some 6) actions_B [0] [0] [3] = Ok m ∧
    ∀ (r : nat) (d : Z) (t : nat),
      [3] !! r = Some d → (t < L lib_AB)%nat →
      (None : option Z) = None ∨ (t ∉ terminal_tokens lib_AB) →
      (6 `div` 2 ≤ i + 2 → t ∈ binary_tokens lib_AB →
       cell m r t = Some (if decide (remaining - 1 ≤ d)
                          then neg_inf else f32_zero)) ∧
      (6 `div` 2 ≤ i + 2 → t ∈ unary_tokens lib_AB →
       t ∉ binary_tokens lib_AB →
       cell m r t = Some (if decide (d = remaining)
                          then neg_inf else f32_zero)) ∧
      (i + 2 < 6 `div` 2 → cell m r t = Some f32_zero).
Proof.
  apply (LengthConstraint_max_length_rule lib_AB None 6 actions_B [0] [0] [3]).
  - exact lib_AB_wf.
  - reflexivity.
Defined.

(** Scenario A: the initial mask of a length constraint forbids [const]
    and [x1] and allows [add] and [sin]. *)
Example scenario_A :
  LengthConstraint_initial_prior lib_AB
  = Ok [neg_inf; neg_inf; f32_zero; f32_zero].
Proof. reflexivity. Qed.

(** Scenario B: with [min_length = 4], after [add] then [x1] the terminals
    are forbidden and [add] and [sin] are allowed. *)
Example scenario_B :
  LengthConstraint_call lib_AB (Some 4) None actions_B [0] [0] [1]
  = Ok [[neg_inf; neg_inf; f32_zero; f32_zero]].
Proof. reflexivity. Qed.

(** ** Child constraint *)

Section ChildConstraintProperties.
Variable lib : Library.

Lemma mapM_Ok_Forall2 {A B : Type} (f : A → result B) (l : list A)
    (k : list B) :
  mapM f l = Ok k → Forall2 (λ x y, f x = Ok y) l k.
Proof.
  revert k. induction l as [|x l IH]; intros k; cbn [mapM].
  - intros [= <-]. constructor.
  - intros (y & Hy & (k' & Hk' & [= <-])%bind_Ok_inv)%bind_Ok_inv.
    constructor; [done|]. by apply IH.
Qed.

Lemma parent_adjust_of_lookup (parents : list nat) (adj : list Z)
    (k : nat) (p : Z) :
  parent_adjust_of lib parents = Ok adj →
  adj !! k = Some p ↔
  ∃ pk, parents !! k = Some pk ∧ parent_adjust lib !! pk = Some p.
Proof.
  intros Hadj%mapM_Ok_Forall2. split.
  - intros Hk.
    destruct (Forall2_lookup_r _ _ _ _ _ Hadj Hk) as (pk & Hpk & Hf).
    exists pk. split; [done|].
    destruct (parent_adjust lib !! pk); by simplify_eq.
  - intros (pk & Hpk & Hp).
    destruct (Forall2_lookup_l _ _ _ _ _ Hadj Hpk) as (a & Ha & Hf).
    rewrite Hp in Hf. by simplify_eq.
Qed.

Lemma ChildConstraint_init_Ok (children parents : list nat) (c : Constraint) :
  ChildConstraint_init lib children parents = Ok c →
  ∃ adj, parent_adjust_of lib parents = Ok adj ∧
         c = ChildConstraint children parents adj.
Proof.
  unfold ChildConstraint_init, actionize.
  intros (adj & Hadj & (toks & _ & Hc)%bind_Ok_inv)%bind_Ok_inv.
  exists adj. split; [done|].
  destruct (_ <$> toks); by simplify_eq.
Qed.

Lemma elem_of_zip_lookup {A B : Type} (l : list A) (k : list B) (x : A)
    (y : B) :
  (x, y) ∈ zip l k ↔ ∃ i, l !! i = Some x ∧ k !! i = Some y.
Proof.
  rewrite list_elem_of_lookup. split.
  - intros (i & Hi). exists i.
    apply lookup_zip_with_Some in Hi as (x' & y' & [= <- <-] & Hx & Hy).
    done.
  - intros (i & Hx & Hy). exists i.
    apply lookup_zip_with_Some. by exists x, y.
Qed.

(** C3: the step mask of a child constraint built from the parallel lists
    [children] and [parents] has -inf at token [t] of a row whose adjusted
    parent is [p] exactly when some pair [k] has [children[k] = t] and
    [parent_adjust[parents[k]] = p], and 0 at every other cell. *)
Theorem ChildConstraint_step_mask
    (children parents : list nat) (c : Constraint) (actions : ndarray2)
    (parent sibling dangling : list Z) :
  ChildConstraint_init lib children parents = Ok c →
  Forall (λ t, (t < L lib)%nat) children →
  length parent = shape0 actions →
  ∃ m,
    call lib c actions parent sibling dangling = Ok m ∧
    ∀ (r : nat) (p : Z) (t : nat),
      parent !! r = Some p → (t < L lib)%nat →
      let forbidden :=
        ∃ (k pk : nat), children !! k = Some t ∧ parents !! k = Some pk ∧
                        parent_adjust lib !! pk = Some p in
      (forbidden → cell m r t = Some neg_inf) ∧
      (¬ forbidden → cell m r t = Some f32_zero).
Proof.
  intros (adj & Hadj & ->)%ChildConstraint_init_Ok Hwf Hlen.
  eexists. split.
  { cbn [call]. by apply ChildConstraint_call_mask_of. }
  intros r p t Hp HtL forbidden.
  assert (r < shape0 actions)%nat as Hr
    by (rewrite <- Hlen; by eapply lookup_lt_Some).
  rewrite cell_mask_of, Hp by done. cbn [from_option].
  unfold ChildConstraint_forbids.
  assert ((t, p) ∈ zip children adj ↔ forbidden) as Hiff.
  { rewrite elem_of_zip_lookup. unfold forbidden. split.
    - intros (k & Hc & Ha).
      apply (parent_adjust_of_lookup parents adj k p Hadj) in Ha
        as (pk & Hpk & Hpa).
      by exists k, pk.
    - intros (k & pk & Hc & Hpk & Hpa). exists k. split; [done|].
      apply (parent_adjust_of_lookup parents adj k p Hadj). by exists pk. }
  split; intros Hf.
  - by rewrite bool_decide_true by (by apply Hiff).
  - rewrite bool_decide_false; [done|]. intros Hin. by apply Hf, Hiff.
Qed.

End ChildConstraintProperties.

Lemma ChildConstraint_step_mask_witness :
  ∃ m,
    call lib_C (ChildConstraint [3%nat] [2%nat] [1]) actions_C [1] [-1] [1]
      = Ok m ∧
    ∀ (r : nat) (p : Z) (t : nat),
      [1] !! r = Some p → (t < L lib_C)%nat →
      let forbidden :=
        ∃ (k pk : nat), [3%nat] !! k = Some t ∧ [2%nat] !! k = Some pk ∧
                        parent_adjust lib_C !! pk = Some p in
      (forbidden → cell m r t = Some neg_inf) ∧
      (¬ forbidden → cell m r t = Some f32_zero).
Proof.
  apply (ChildConstraint_step_mask lib_C [3%nat] [2%nat]
           (ChildConstraint [3%nat] [2%nat] [1]) actions_C [1] [-1] [1]).
  - reflexivity.
  - repeat constructor.
  - reflexivity.
Defined.

(** Scenario C: with [log] forbidden as a child of [exp], a row whose
    parent is [exp] gets -inf at [log] only, both for the single pair and
    for the constraint built from the library's inverse tokens. *)
Example scenario_C :
  (c ← ChildConstraint_init lib_C [3%nat] [2%nat];
   call lib_C c actions_C [1] [-1] [1])
  = Ok [[f32_zero; f32_zero; f32_zero; neg_inf]] ∧
  (c ← InverseUnaryConstraint_init lib_C;
   call lib_C c actions_C [1] [-1] [1])
  = Ok [[f32_zero; f32_zero; f32_zero; neg_inf]].
Proof. split; reflexivity. Qed.

(** ** Construction of a child constraint *)

(** C8: the assertion of [ChildConstraint.__init__] tests a list, not its
    entries, so a terminal parent is accepted: on the library of scenario C
    the construction with the terminal [x1] as parent of [log] succeeds. *)
Theorem ChildConstraint_init_terminal_parent :
  (arity <$> tokens lib_C !! 0%nat) = Some 0%nat ∧
  ChildConstraint_init lib_C [3%nat] [0%nat]
  = Ok (ChildConstraint [3%nat] [0%nat] [-1]).
Proof. split; reflexivity. Qed.

Lemma mapM_Raise_inv {A B : Type} (f : A → result B) (l : list A) (e : exn) :
  mapM f l = Raise e → ∃ x, x ∈ l ∧ f x = Raise e.
Proof.
  induction l as [|x l IH]; cbn [mapM]; [done|].
  destruct (f x) as [y|e'] eqn:Hx.
  - rewrite bind_Ok. destruct (mapM f l) as [k|e'']; [done|].
    intros [= ->]. destruct IH as (x' & ? & ?); [done|].
    exists x'. split; [by right|done].
  - intros [= ->]. exists x. split; [by left|done].
Qed.

(** The construction fails on its assertion only for an empty list of
    parents. *)
Lemma ChildConstraint_init_asserts (lib : Library) (children parents : list nat) :
  ChildConstraint_init lib children parents = Raise AssertionError ↔
  parents = [].
Proof.
  unfold ChildConstraint_init. split; [|by intros ->].
  destruct (parent_adjust_of lib parents) as [adj|e] eqn:Hadj.
  - rewrite bind_Ok.
    destruct (tokenize lib parents) as [toks|e] eqn:Htoks.
    + rewrite bind_Ok. apply mapM_Ok_Forall2, Forall2_length in Htoks.
      destruct toks; [|done]. by destruct parents.
    + intros [= ->]. apply mapM_Raise_inv in Htoks as (p & _ & Hp).
      by destruct (tokens lib !! p).
  - intros [= ->]. apply mapM_Raise_inv in Hadj as (p & _ & Hp).
    by destruct (parent_adjust lib !! p).
Qed.

(** ** Constraints without a masking policy *)

(** C9: every call of a constructed [RepeatConstraint] or
    [DescendantConstraint] raises [NotImplementedError]; it does not return
    the all-zero mask. *)
Theorem unimplemented_constraints_raise (lib : Library) (c : Constraint)
    (actions : ndarray2) (parent sibling dangling : list Z) :
  (∃ toks mn mx, RepeatConstraint_init toks mn mx = Ok c) ∨
  (∃ descendants ancestors,
     DescendantConstraint_init lib descendants ancestors = Ok c) →
  call lib c actions parent sibling dangling = Raise NotImplementedError ∧
  call lib c actions parent sibling dangling ≠ Ok (Prior_zeros lib actions).
Proof.
  intros [(toks & mn & mx & Hc)|(ds & ancs & Hc)].
  - unfold RepeatConstraint_init in Hc.
    destruct mn, mx; simplify_eq; by split.
  - unfold DescendantConstraint_init in Hc. simplify_eq. by split.
Qed.

Lemma unimplemented_constraints_raise_witness :
  call lib_AB (RepeatConstraint [0%nat] (Some 1) None) actions_B [0] [0] [1]
    = Raise NotImplementedError ∧
  call lib_AB (RepeatConstraint [0%nat] (Some 1) None) actions_B [0] [0] [1]
    ≠ Ok (Prior_zeros lib_AB actions_B).
Proof.
  apply (unimplemented_constraints_raise lib_AB
           (RepeatConstraint [0%nat] (Some 1) None) actions_B [0] [0] [1]).
  left. exists [0%nat], (Some 1), None. reflexivity.
Defined.

(** ** Initial masks *)

Section InitialPrior.
Variable lib : Library.

Lemma setitem_row_of n f (t : nat) :
  setitem (row_of n f) t neg_inf =
  if bool_decide (t < n)%nat
  then Ok (row_of n (λ t', f t' || bool_decide (t' = t)))
  else Raise IndexError.
Proof. unfold setitem. by rewrite length_row_of, row_insert. Qed.

Lemma foldlM_setitem_row_of n (toks : list nat) f :
  foldlM (λ prior t, setitem prior t neg_inf) (row_of n f) toks =
  if bool_decide (Forall (λ t, (t < n)%nat) toks)
  then Ok (row_of n (λ t, f t || bool_decide (t ∈ toks)))
  else Raise IndexError.
Proof.
  revert f. induction toks as [|t toks IH]; intros f; cbn [foldlM].
  - rewrite bool_decide_true by constructor. f_equal.
    apply row_of_ext. intros t' _.
    rewrite (bool_decide_false (t' ∈ [])) by apply not_elem_of_nil.
    by rewrite orb_false_r.
  - rewrite setitem_row_of.
    destruct (decide (t < n)%nat) as [Ht|Ht].
    + rewrite (bool_decide_true (t < n)%nat), bind_Ok by done.
      rewrite IH.
      destruct (decide (Forall (λ t0, (t0 < n)%nat) toks)) as [Hall|Hall].
      * rewrite !bool_decide_true by (done || by constructor). f_equal.
        apply row_of_ext. intros t' _.
        rewrite (bool_decide_ext (t' ∈ t :: toks) (t' = t ∨ t' ∈ toks))
          by apply elem_of_cons.
        by rewrite bool_decide_or, orb_assoc.
      * rewrite !bool_decide_false; [done| |done].
        intros Hall'. apply Hall. by inversion Hall'.
    + rewrite (bool_decide_false (t < n)%nat), bind_Raise by done.
      rewrite bool_decide_false; [done|].
      intros Hall'. apply Ht. by inversion Hall'.
Qed.

Lemma LengthConstraint_initial_prior_row_of :
  LengthConstraint_initial_prior lib =
  if bool_decide (Forall (λ t, (t < L lib)%nat) (terminal_tokens lib))
  then Ok (row_of (L lib) (λ t, bool_decide (t ∈ terminal_tokens lib)))
  else Raise IndexError.
Proof.
  unfold LengthConstraint_initial_prior, Prior_initial_prior.
  by rewrite zeros_row_of, foldlM_setitem_row_of.
Qed.

Lemma initial_prior_row_of (c : Constraint) :
  Forall (λ t, (t < L lib)%nat) (terminal_tokens lib) →
  initial_prior lib c =
  Ok (row_of (L lib)
        (λ t, is_LengthConstraint c && bool_decide (t ∈ terminal_tokens lib))).
Proof.
  intros Hterm.
  destruct c; cbn [initial_prior is_LengthConstraint andb];
    try (unfold Prior_initial_prior; by rewrite zeros_row_of).
  rewrite LengthConstraint_initial_prior_row_of.
  by rewrite bool_decide_true.
Qed.

Lemma initial_prior_not_length (c : Constraint) :
  is_LengthConstraint c = false → initial_prior lib c = Ok (zeros (L lib)).
Proof. by destruct c. Qed.

Lemma JointPrior_initial_prior_loop (priors : list Constraint) f :
  Forall (λ t, (t < L lib)%nat) (terminal_tokens lib) →
  foldlM (λ combined prior, v ← initial_prior lib prior; Ok (viadd combined v))
         (row_of (L lib) f) priors =
  Ok (row_of (L lib)
        (λ t, f t || existsb is_LengthConstraint priors &&
                     bool_decide (t ∈ terminal_tokens lib))).
Proof.
  intros Hwf. revert f.
  induction priors as [|c priors IH]; intros f; cbn [foldlM existsb].
  - f_equal. apply row_of_ext. intros t _. by rewrite orb_false_r.
  - rewrite initial_prior_row_of, bind_Ok by done.
    unfold viadd. rewrite row_add, bind_Ok, IH. f_equal.
    apply row_of_ext. intros t _.
    by destruct (f t), (is_LengthConstraint c),
      (existsb is_LengthConstraint priors),
      (bool_decide (t ∈ terminal_tokens lib)).
Qed.

Lemma JointPrior_initial_prior_row_of (priors : list Constraint) :
  Forall (λ t, (t < L lib)%nat) (terminal_tokens lib) →
  JointPrior_initial_prior lib priors =
  Ok (row_of (L lib)
        (λ t, existsb is_LengthConstraint priors &&
              bool_decide (t ∈ terminal_tokens lib))).
Proof.
  intros Hwf. unfold JointPrior_initial_prior.
  by rewrite zeros_row_of, JointPrior_initial_prior_loop.
Qed.

Lemma JointPrior_initial_prior_not_length (priors : list Constraint) :
  Forall (λ c, is_LengthConstraint c = false) priors →
  JointPrior_initial_prior lib priors = Ok (zeros (L lib)).
Proof.
  unfold JointPrior_initial_prior.
  induction 1 as [|c priors Hc _ IH]; cbn [foldlM]; [done|].
  rewrite initial_prior_not_length, bind_Ok by done.
  replace (viadd (zeros (L lib)) (zeros (L lib))) with (zeros (L lib));
    [by rewrite bind_Ok|].
  unfold viadd. rewrite zeros_row_of, row_add. by apply row_of_ext.
Qed.

Lemma JointPrior_initial_prior_raises (priors : list Constraint) f :
  ¬ Forall (λ t, (t < L lib)%nat) (terminal_tokens lib) →
  foldlM (λ combined prior, v ← initial_prior lib prior; Ok (viadd combined v))
         (row_of (L lib) f) priors =
  if existsb is_LengthConstraint priors then Raise IndexError
  else Ok (row_of (L lib) f).
Proof.
  intros Hterm.
  induction priors as [|c priors IH]; cbn [foldlM existsb]; [done|].
  destruct (is_LengthConstraint c) eqn:Hc.
  - destruct c; try done. cbn [initial_prior].
    rewrite LengthConstraint_initial_prior_row_of.
    by rewrite bool_decide_false.
  - rewrite initial_prior_not_length, bind_Ok by done.
    unfold viadd. rewrite zeros_row_of, row_add, bind_Ok. cbn [orb].
    rewrite <- IH. f_equal. apply row_of_ext. intros t _.
    by rewrite orb_false_r.
Qed.

(** The initial mask of a joint prior is the one of a length constraint
    when it holds one, and all zeros otherwise. *)
Lemma JointPrior_initial_prior_closed_form (priors : list Constraint) :
  JointPrior_initial_prior lib priors =
  if existsb is_LengthConstraint priors then LengthConstraint_initial_prior lib
  else Ok (zeros (L lib)).
Proof.
  destruct (decide (Forall (λ t, (t < L lib)%nat) (terminal_tokens lib)))
    as [Hterm|Hterm].
  - rewrite JointPrior_initial_prior_row_of by done.
    destruct (existsb is_LengthConstraint priors); cbn [andb].
    + rewrite LengthConstraint_initial_prior_row_of.
      by rewrite bool_decide_true.
    + by rewrite zeros_row_of.
  - unfold JointPrior_initial_prior.
    rewrite zeros_row_of, JointPrior_initial_prior_raises by done.
    destruct (existsb is_LengthConstraint priors); [|done].
    rewrite LengthConstraint_initial_prior_row_of.
    by rewrite bool_decide_false.
Qed.

(** C10: every constraint other than a [LengthConstraint] has the
    all-zeros initial mask of length [L]; the initial mask of a
    [JointPrior] without a [LengthConstraint] is all zeros, and with one it
    is -inf at the terminal tokens and 0 at the other tokens. *)
Theorem initial_masks :
  (∀ c, is_LengthConstraint c = false →
        initial_prior lib c = Ok (zeros (L lib))) ∧
  (∀ priors, Forall (λ c, is_LengthConstraint c = false) priors →
             JointPrior_initial_prior lib priors = Ok (zeros (L lib))) ∧
  (Library_wf lib →
   ∀ priors, Exists (λ c, is_LengthConstraint c = true) priors →
     ∃ v, JointPrior_initial_prior lib priors = Ok v ∧
          length v = L lib ∧
          ∀ t : nat, (t < L lib)%nat →
            v !! t = Some (if decide (t ∈ terminal_tokens lib)
                           then neg_inf else f32_zero)).
Proof.
  split; [exact initial_prior_not_length|].
  split; [exact JointPrior_initial_prior_not_length|].
  intros (Hterm & _ & _) priors Hlen. eexists. split.
  { by apply JointPrior_initial_prior_row_of. }
  split; [apply length_row_of|].
  intros t Ht. rewrite lookup_row_of by done.
  replace (existsb is_LengthConstraint priors) with true.
  - cbn [andb]. unfold flag. by case_bool_decide; case_decide.
  - symmetry. apply existsb_exists.
    apply Exists_exists in Hlen as (c & Hc & Hlen).
    exists c. split; [by apply list_elem_of_In|done].
Qed.

End InitialPrior.

Lemma initial_masks_witness :
  initial_prior lib_AB (ChildConstraint [3%nat] [3%nat] [1])
    = Ok (zeros (L lib_AB)) ∧
  JointPrior_initial_prior lib_AB
    [ChildConstraint [3%nat] [3%nat] [1]; RepeatConstraint [0%nat] (Some 1) None]
    = Ok (zeros (L lib_AB)) ∧
  ∃ v, JointPrior_initial_prior lib_AB
         [ChildConstraint [3%nat] [3%nat] [1]; LengthConstraint (Some 4) None]
         = Ok v ∧
       length v = L lib_AB ∧
       ∀ t : nat, (t < L lib_AB)%nat →
         v !! t = Some (if decide (t ∈ terminal_tokens lib_AB)
                        then neg_inf else f32_zero).
Proof.
  destruct (initial_masks lib_AB) as (Hbase & Hjoint & Hlength).
  split; [by apply Hbase|].
  split; [apply Hjoint; by repeat constructor|].
  apply Hlength; [exact lib_AB_wf|].
  apply Exists_cons_tl, Exists_cons_hd. reflexivity.
Defined.

(** ** Every mask is hard *)

Section HardMasks.
Variable lib : Library.

Lemma is_mask_hard b n m (r t : nat) (x : float32) :
  is_mask b n m → cell m r t = Some x → hard x.
Proof.
  intros [f ->]. unfold cell.
  destruct (decide (r < b)%nat) as [Hr|Hr].
  - rewrite lookup_mask_of by done. cbn.
    destruct (decide (t < n)%nat) as [Ht|Ht].
    + rewrite lookup_row_of by done. intros [= <-]. apply hard_flag.
    + by rewrite lookup_row_of_ge by lia.
  - by rewrite (lookup_ge_None_2 (mask_of b n f))
      by (rewrite length_mask_of; lia).
Qed.

Lemma constrain_is_mask b f (mask : list bool) (toks : list nat) m :
  (m' ← make_constraint lib mask toks; iadd (mask_of b (L lib) f) m') = Ok m →
  is_mask b (L lib) m.
Proof.
  rewrite make_constraint_mask_of. case_bool_decide; [|done].
  rewrite bind_Ok, iadd_mask_of.
  repeat case_bool_decide; intros [= <-]; by eexists.
Qed.

Lemma LengthConstraint_call_is_mask mn mx actions parent sibling dangling m :
  LengthConstraint_call lib mn mx actions parent sibling dangling = Ok m →
  is_mask (shape0 actions) (L lib) m.
Proof.
  unfold LengthConstraint_call, Prior_zeros. rewrite zeros2_mask_of.
  intros (m1 & Hmax & Hmin)%bind_Ok_inv.
  assert (is_mask (shape0 actions) (L lib) m1) as [f1 ->].
  { destruct mx as [mx|]; [|injection Hmax as <-; by eexists].
    case_bool_decide; [|injection Hmax as <-; by eexists].
    apply bind_Ok_inv in Hmax as (mb & Hmb & Hmax).
    apply bind_Ok_inv in Hmax as (m2 & Hm2 & Hmax).
    assert (is_mask (shape0 actions) (L lib) m2) as [f2 ->].
    { eapply constrain_is_mask. by rewrite Hmb, bind_Ok. }
    by eapply constrain_is_mask. }
  destruct mn as [mn|]; [|injection Hmin as <-; by eexists].
  case_bool_decide; [|injection Hmin as <-; by eexists].
  by eapply constrain_is_mask.
Qed.

Lemma ChildConstraint_call_is_mask children adj_parents actions
    parent sibling dangling m :
  ChildConstraint_call lib children adj_parents actions parent sibling dangling
    = Ok m →
  is_mask (shape0 actions) (L lib) m.
Proof.
  unfold ChildConstraint_call, Prior_zeros. rewrite zeros2_mask_of.
  generalize (λ _ _ : nat, false) as f.
  induction (zip children adj_parents) as [|[c adj_p] pairs IH]; intros f;
    cbn [foldlM].
  - intros [= <-]. by eexists.
  - intros (m1 & [f1 ->]%constrain_is_mask & Hrest)%bind_Ok_inv.
    by eapply IH.
Qed.

Lemma call_is_mask (c : Constraint) actions parent sibling dangling m :
  call lib c actions parent sibling dangling = Ok m →
  is_mask (shape0 actions) (L lib) m.
Proof.
  destruct c; cbn [call]; [done| |done|].
  - apply ChildConstraint_call_is_mask.
  - apply LengthConstraint_call_is_mask.
Qed.

Lemma scalar_add_zero_mask_of b n f :
  scalar_add f32_zero (mask_of b n f) = mask_of b n f.
Proof.
  unfold scalar_add, mask_of. rewrite <- list_fmap_compose.
  apply list_fmap_ext. intros _ r _. cbn. unfold row_of.
  rewrite <- list_fmap_compose.
  apply list_fmap_ext. intros _ t _. cbn. apply f32_add_zero_flag.
Qed.

Lemma py_sum_is_mask b n (ms : list matrix) (a : sum_acc) :
  Forall (is_mask b n) ms →
  a = Start ∨ (∃ m, a = Acc m ∧ is_mask b n m) →
  let a' := foldl (λ a m, Acc (acc_add a m)) a ms in
  a' = Start ∨ (∃ m, a' = Acc m ∧ is_mask b n m).
Proof.
  intros Hms. revert a. induction Hms as [|m ms [f ->] _ IH]; intros a Ha;
    cbn [foldl]; [done|].
  apply IH. right. eexists. split; [done|].
  destruct Ha as [->|(m' & -> & [g ->])]; cbn [acc_add].
  - rewrite scalar_add_zero_mask_of. by eexists.
  - rewrite mask_add. by eexists.
Qed.

Lemma JointPrior_call_is_mask (priors : list Constraint)
    actions parent sibling dangling m :
  JointPrior_call lib priors actions parent sibling dangling = Ok m →
  is_mask (shape0 actions) (L lib) m.
Proof.
  unfold JointPrior_call. rewrite zeros2_mask_of.
  intros (ms & Hms%mapM_Ok_Forall2 & [= <-])%bind_Ok_inv.
  assert (Forall (is_mask (shape0 actions) (L lib)) ms) as Hall.
  { induction Hms as [|c m' priors ms Hc _ IH]; constructor; [|done].
    apply bind_Ok_inv in Hc as (mc & [g ->]%call_is_mask & Hc).
    rewrite iadd_mask_of_same in Hc. injection Hc as <-. by eexists. }
  destruct (py_sum_is_mask _ _ ms Start Hall (or_introl eq_refl))
    as [Hs|(m' & Hs & [g ->])]; unfold py_sum; rewrite Hs; cbn [acc_add].
  - rewrite scalar_add_zero_mask_of. by eexists.
  - rewrite mask_add. by eexists.
Qed.

Lemma is_row_hard n v (t : nat) (x : float32) :
  is_row n v → v !! t = Some x → hard x.
Proof.
  intros [f ->]. destruct (decide (t < n)%nat) as [Ht|Ht].
  - rewrite lookup_row_of by done. intros [= <-]. apply hard_flag.
  - by rewrite lookup_row_of_ge by lia.
Qed.

Lemma initial_prior_is_row (c : Constraint) v :
  initial_prior lib c = Ok v → is_row (L lib) v.
Proof.
  destruct c; cbn [initial_prior];
    try (intros [= <-]; unfold Prior_initial_prior; rewrite zeros_row_of;
         by eexists).
  rewrite LengthConstraint_initial_prior_row_of.
  case_bool_decide; [|done]. intros [= <-]. by eexists.
Qed.

Lemma JointPrior_initial_prior_is_row (priors : list Constraint) v :
  JointPrior_initial_prior lib priors = Ok v → is_row (L lib) v.
Proof.
  unfold JointPrior_initial_prior. rewrite zeros_row_of.
  generalize (λ _ : nat, false) as f. revert v.
  induction priors as [|c priors IH]; intros v f; cbn [foldlM].
  - intros [= <-]. by eexists.
  - intros (v1 & Hv1 & Hrest)%bind_Ok_inv.
    apply bind_Ok_inv in Hv1 as (vc & [g ->]%initial_prior_is_row & [= <-]).
    unfold viadd in Hrest. rewrite row_add in Hrest. by eapply IH.
Qed.

(** C5: every cell of a step mask or initial mask of a constraint, and of
    the step mask and initial mask of a [JointPrior], is 0 or -inf, and the
    sum of two such cells is again 0 or -inf. *)
Theorem masks_are_hard :
  (∀ c actions parent sibling dangling m (r t : nat) x,
     call lib c actions parent sibling dangling = Ok m →
     cell m r t = Some x → hard x) ∧
  (∀ c v (t : nat) x,
     initial_prior lib c = Ok v → v !! t = Some x → hard x) ∧
  (∀ priors actions parent sibling dangling m (r t : nat) x,
     JointPrior_call lib priors actions parent sibling dangling = Ok m →
     cell m r t = Some x → hard x) ∧
  (∀ priors v (t : nat) x,
     JointPrior_initial_prior lib priors = Ok v → v !! t = Some x → hard x) ∧
  (∀ x y, hard x → hard y → hard (f32_add x y)).
Proof.
  repeat split.
  - intros c actions parent sibling dangling m r t x Hm.
    eapply is_mask_hard. by eapply call_is_mask.
  - intros c v t x Hv. eapply is_row_hard. by eapply initial_prior_is_row.
  - intros priors actions parent sibling dangling m r t x Hm.
    eapply is_mask_hard. by eapply JointPrior_call_is_mask.
  - intros priors v t x Hv.
    eapply is_row_hard. by eapply JointPrior_initial_prior_is_row.
  - apply hard_add.
Qed.

End HardMasks.

Lemma masks_are_hard_witness :
  ∃ m x,
    JointPrior_call lib_AB
      [LengthConstraint (Some 4) None; ChildConstraint [3%nat] [3%nat] [1]]
      actions_B [0] [0] [1] = Ok m ∧
    cell m 0 0 = Some x ∧ hard x ∧ hard (f32_add x x).
Proof.
  destruct (masks_are_hard lib_AB) as (_ & _ & Hjoint & _ & Hadd).
  eexists _, _. split; [reflexivity|]. split; [reflexivity|].
  assert (hard neg_inf) as Hx.
  { eapply (Hjoint
              [LengthConstraint (Some 4) None;
               ChildConstraint [3%nat] [3%nat] [1]]
              actions_B [0] [0] [1] _ 0%nat 0%nat); reflexivity. }
  split; [exact Hx|]. by apply Hadd.
Defined.

(** ** The joint prior does not depend on the order of its constraints *)

Section JointPriorOrder.
Variable lib : Library.
Variables (actions : ndarray2) (parent sibling dangling : list Z).

Lemma existsb_Permutation {A : Type} (p : A → bool) (l l' : list A) :
  l ≡ₚ l' → existsb p l = existsb p l'.
Proof.
  induction 1 as [|x l l' _ IH|x y l|l l' l'' _ IH1 _ IH2]; cbn [existsb].
  - done.
  - by rewrite IH.
  - by destruct (p x), (p y).
  - by rewrite IH1.
Qed.

Lemma mapM_Ok_Permutation {A B : Type} (f : A → result B) (l l' : list A)
    (k : list B) :
  l ≡ₚ l' → mapM f l = Ok k → ∃ k', mapM f l' = Ok k' ∧ k ≡ₚ k'.
Proof.
  intros Hperm. revert k.
  induction Hperm as [|x l l' _ IH|x y l|l l' l'' _ IH1 _ IH2]; intros k;
    cbn [mapM].
  - intros [= <-]. by exists [].
  - intros (y & Hy & (k0 & Hk0 & [= <-])%bind_Ok_inv)%bind_Ok_inv.
    destruct (IH k0 Hk0) as (k0' & -> & Hk0').
    rewrite Hy, !bind_Ok. exists (y :: k0'). split; [done|].
    by constructor.
  - intros (b & Hb & (k1 & Hk1 & [= <-])%bind_Ok_inv)%bind_Ok_inv.
    apply bind_Ok_inv in Hk1 as (a & Ha & (k0 & Hk0 & [= <-])%bind_Ok_inv).
    rewrite Ha, Hb, Hk0, !bind_Ok. exists (a :: b :: k0). split; [done|].
    apply perm_swap.
  - intros Hk. destruct (IH1 k Hk) as (k' & Hk' & Hperm1).
    destruct (IH2 k' Hk') as (k'' & Hk'' & Hperm2).
    exists k''. split; [done|]. by etrans.
Qed.

Lemma py_sum_loop_closed_form {A : Type} b n (g : A → nat → nat → bool)
    (cs : list A) f :
  foldl (λ a m, Acc (acc_add a m)) (Acc (mask_of b n f))
        ((λ c, mask_of b n (g c)) <$> cs) =
  Acc (mask_of b n (λ r t, f r t || existsb (λ c, g c r t) cs)).
Proof.
  revert f. induction cs as [|c cs IH]; intros f; cbn [fmap list_fmap foldl].
  - f_equal. apply mask_of_ext. intros r t _ _. cbn. by rewrite orb_false_r.
  - cbn [acc_add]. rewrite mask_add, IH. f_equal.
    apply mask_of_ext. intros r t _ _. cbn. by rewrite orb_assoc.
Qed.

(** The sum of hard masks forbids a cell when one of them does. *)
Lemma combined_prior_closed_form {A : Type} b n (g : A → nat → nat → bool)
    (cs : list A) :
  acc_add (py_sum ((λ c, mask_of b n (g c)) <$> cs))
          (mask_of b n (λ _ _, false)) =
  mask_of b n (λ r t, existsb (λ c, g c r t) cs).
Proof.
  unfold py_sum. destruct cs as [|c cs]; cbn [fmap list_fmap foldl acc_add].
  - by rewrite scalar_add_zero_mask_of.
  - rewrite scalar_add_zero_mask_of, py_sum_loop_closed_form.
    cbn [acc_add]. rewrite mask_add.
    apply mask_of_ext. intros r t _ _. cbn. by rewrite orb_false_r.
Qed.

Lemma is_mask_canonical b n (m : matrix) :
  is_mask b n m → m = mask_of b n (forbidden_cell m).
Proof.
  intros [f ->]. apply mask_of_ext. intros r t Hr Ht.
  unfold forbidden_cell. rewrite cell_mask_of by done.
  by destruct (f r t).
Qed.

Lemma combined_prior_Permutation b n (ms ms' : list matrix) :
  Forall (is_mask b n) ms → ms ≡ₚ ms' →
  acc_add (py_sum ms) (mask_of b n (λ _ _, false)) =
  acc_add (py_sum ms') (mask_of b n (λ _ _, false)).
Proof.
  intros Hms Hperm.
  assert (∀ l : list matrix, Forall (is_mask b n) l →
            l = (λ m, mask_of b n (forbidden_cell m)) <$> l) as Hcanon.
  { induction 1 as [|m l Hm _ IH]; [done|].
    cbn [fmap list_fmap]. f_equal; [by apply is_mask_canonical|done]. }
  rewrite (Hcanon ms Hms), (Hcanon ms') by (by rewrite <- Hperm).
  rewrite !combined_prior_closed_form.
  apply mask_of_ext. intros r t _ _. by apply existsb_Permutation.
Qed.

Lemma ind_prior_is_mask (c : Constraint) (m : matrix) :
  (m' ← call lib c actions parent sibling dangling;
   iadd (mask_of (shape0 actions) (L lib) (λ _ _, false)) m') = Ok m →
  is_mask (shape0 actions) (L lib) m.
Proof.
  intros (mc & [g ->]%call_is_mask & Hm)%bind_Ok_inv.
  rewrite iadd_mask_of_same in Hm. injection Hm as <-. by eexists.
Qed.

(** When one order of the constraints yields a mask, every order yields
    that mask. *)
Lemma JointPrior_call_Ok_Permutation (priors priors' : list Constraint)
    (m : matrix) :
  priors ≡ₚ priors' →
  JointPrior_call lib priors actions parent sibling dangling = Ok m →
  JointPrior_call lib priors' actions parent sibling dangling = Ok m.
Proof.
  intros Hperm. unfold JointPrior_call. rewrite zeros2_mask_of.
  intros (ms & Hms & [= <-])%bind_Ok_inv.
  destruct (mapM_Ok_Permutation _ _ _ _ Hperm Hms) as (ms' & -> & Hperm').
  rewrite bind_Ok. f_equal. symmetry.
  apply combined_prior_Permutation; [|done].
  apply mapM_Ok_Forall2 in Hms. clear Hperm Hperm'.
  induction Hms as [|c mc cs mcs Hc _ IH]; [constructor|].
  constructor; [by eapply ind_prior_is_mask|done].
Qed.

Lemma call_closed_form (c : Constraint) :
  Library_wf lib → Constraint_wf lib c →
  length parent = shape0 actions → length dangling = shape0 actions →
  call lib c actions parent sibling dangling =
  if not_implemented c then Raise NotImplementedError
  else Ok (mask_of (shape0 actions) (L lib)
             (Constraint_forbids lib c actions parent dangling)).
Proof.
  intros Hlib Hc Hparent Hdangling.
  destruct c; cbn [call not_implemented Constraint_forbids]; [done| |done|].
  - by apply ChildConstraint_call_mask_of.
  - by apply LengthConstraint_call_mask_of.
Qed.

Lemma ind_priors_closed_form (priors : list Constraint) :
  Library_wf lib → Forall (Constraint_wf lib) priors →
  length parent = shape0 actions → length dangling = shape0 actions →
  mapM (λ prior,
          m ← call lib prior actions parent sibling dangling;
          iadd (mask_of (shape0 actions) (L lib) (λ _ _, false)) m) priors =
  if existsb not_implemented priors then Raise NotImplementedError
  else Ok ((λ c, mask_of (shape0 actions) (L lib)
                   (Constraint_forbids lib c actions parent dangling))
           <$> priors).
Proof.
  intros Hlib Hwf Hparent Hdangling.
  induction Hwf as [|c priors Hc _ IH]; cbn [mapM existsb]; [done|].
  rewrite call_closed_form by done.
  destruct (not_implemented c); [done|].
  rewrite bind_Ok, iadd_mask_of_same, bind_Ok, IH. cbn [orb].
  by destruct (existsb not_implemented priors).
Qed.

(** On well-formed inputs the joint mask forbids a cell when some
    constraint forbids it, and a constraint without a policy makes the call
    raise. *)
Lemma JointPrior_call_closed_form (priors : list Constraint) :
  Library_wf lib → Forall (Constraint_wf lib) priors →
  length parent = shape0 actions → length dangling = shape0 actions →
  JointPrior_call lib priors actions parent sibling dangling =
  if existsb not_implemented priors then Raise NotImplementedError
  else Ok (mask_of (shape0 actions) (L lib)
             (λ r t, existsb (λ c, Constraint_forbids lib c actions parent
                                     dangling r t) priors)).
Proof.
  intros Hlib Hwf Hparent Hdangling. unfold JointPrior_call.
  rewrite zeros2_mask_of, ind_priors_closed_form by done.
  destruct (existsb not_implemented priors); [done|].
  by rewrite bind_Ok, combined_prior_closed_form.
Qed.

(** C4: permuting the list of constraints of a [JointPrior] leaves its
    masks unchanged: a step mask one order yields is the step mask every
    order yields, the initial mask is the same in every order, and for a
    well-formed library, constraints that write to tokens of the library
    and batch arrays with one entry per row the two calls agree also when
    they raise. *)
Theorem JointPrior_order_irrelevant (priors priors' : list Constraint) :
  priors ≡ₚ priors' →
  (∀ m, JointPrior_call lib priors actions parent sibling dangling = Ok m →
        JointPrior_call lib priors' actions parent sibling dangling = Ok m) ∧
  JointPrior_initial_prior lib priors = JointPrior_initial_prior lib priors' ∧
  (Library_wf lib → Forall (Constraint_wf lib) priors →
   length parent = shape0 actions → length dangling = shape0 actions →
   JointPrior_call lib priors actions parent sibling dangling =
   JointPrior_call lib priors' actions parent sibling dangling).
Proof.
  intros Hperm. split; [|split].
  - intros m. by apply JointPrior_call_Ok_Permutation.
  - rewrite !JointPrior_initial_prior_closed_form.
    by rewrite (existsb_Permutation is_LengthConstraint priors priors').
  - intros Hlib Hwf Hparent Hdangling.
    assert (Forall (Constraint_wf lib) priors') as Hwf' by by rewrite <- Hperm.
    rewrite !JointPrior_call_closed_form by done.
    rewrite (existsb_Permutation not_implemented priors priors') by done.
    destruct (existsb not_implemented priors'); [done|]. f_equal.
    apply mask_of_ext. intros r t _ _. by apply existsb_Permutation.
Qed.

End JointPriorOrder.

Lemma JointPrior_order_irrelevant_witness :
  JointPrior_call lib_AB
    [ChildConstraint [3%nat] [3%nat] [1]; LengthConstraint (Some 4) (Some 6)]
    actions_B [0] [0] [1]
  = Ok [[neg_inf; neg_inf; f32_zero; f32_zero]] ∧
  JointPrior_initial_prior lib_AB
    [LengthConstraint (Some 4) (Some 6); ChildConstraint [3%nat] [3%nat] [1]] =
  JointPrior_initial_prior lib_AB
    [ChildConstraint [3%nat] [3%nat] [1]; LengthConstraint (Some 4) (Some 6)] ∧
  JointPrior_call lib_AB
    [LengthConstraint (Some 4) (Some 6); ChildConstraint [3%nat] [3%nat] [1]]
    actions_B [0] [0] [1] =
  JointPrior_call lib_AB
    [ChildConstraint [3%nat] [3%nat] [1]; LengthConstraint (Some 4) (Some 6)]
    actions_B [0] [0] [1].
Proof.
  destruct (JointPrior_order_irrelevant lib_AB actions_B [0] [0] [1]
              [LengthConstraint (Some 4) (Some 6);
               ChildConstraint [3%nat] [3%nat] [1]]
              [ChildConstraint [3%nat] [3%nat] [1];
               LengthConstraint (Some 4) (Some 6)]
              (perm_swap _ _ _))
    as (Hmask & Hinitial & Hcall).
  split; [apply Hmask; reflexivity|]. split; [exact Hinitial|].
  apply Hcall; [exact lib_AB_wf|repeat constructor|reflexivity|reflexivity].
Defined.

(** ** The reactive checks of symbolic_math.py *)

Section ReactiveChecks.
Variables UNARY_TOKENS BINARY_TOKENS : list string.

Abbreviation check_trig_loop' := (check_trig_loop UNARY_TOKENS BINARY_TOKENS).
Abbreviation tracker_step' := (tracker_step UNARY_TOKENS BINARY_TOKENS).

(** One step of the loop of [check_trig] on a token that is not
    trigonometric is one step of the tracker. *)
Lemma check_trig_loop_step (nm : string) (rest : list string) (s : tracker) :
  nm ∉ TRIG_TOKENS →
  check_trig_loop' (nm :: rest) (nesting s) (open_count s) =
  check_trig_loop' rest (nesting (tracker_step' s nm))
                        (open_count (tracker_step' s nm)).
Proof.
  intros Hnm. cbn [check_trig_loop]. unfold tracker_step.
  rewrite (bool_decide_false (nm ∈ TRIG_TOKENS)) by done.
  destruct s as [[] d]; cbn [nesting open_count]; [|done].
  repeat case_bool_decide; try done; try lia.
Qed.

Lemma check_trig_loop_spec (names : list string) (s : tracker) :
  check_trig_loop' names (nesting s) (open_count s) = true ↔
  ∃ scanned nm rest,
    names = scanned ++ nm :: rest ∧ nm ∈ TRIG_TOKENS ∧
    nesting (foldl tracker_step' s scanned) = true.
Proof.
  revert s. induction names as [|nm0 names IH]; intros s.
  - split; [done|]. intros (scanned & nm & rest & Heq & _).
    by destruct scanned.
  - destruct (decide (nm0 ∈ TRIG_TOKENS)) as [Htrig|Htrig].
    + cbn [check_trig_loop]. rewrite bool_decide_true by done.
      destruct (nesting s) eqn:Hs.
      * split; [|done]. intros _. by exists [], nm0, names.
      * specialize (IH {| nesting := true; open_count := 1 |}).
        cbn [nesting open_count] in IH. rewrite IH.
        split.
        -- intros (scanned & nm & rest & -> & Hnm & Hopen).
           exists (nm0 :: scanned), nm, rest. split; [done|]. split; [done|].
           cbn [foldl]. unfold tracker_step at 2.
           by rewrite bool_decide_true by done.
        -- intros (scanned & nm & rest & Heq & Hnm & Hopen).
           destruct scanned as [|nm1 scanned].
           { cbn in Hopen. congruence. }
           injection Heq as <- ->. exists scanned, nm, rest.
           split; [done|]. split; [done|].
           cbn [foldl] in Hopen. unfold tracker_step at 2 in Hopen.
           by rewrite bool_decide_true in Hopen by done.
    + rewrite check_trig_loop_step, IH by done. split.
      * intros (scanned & nm & rest & -> & Hnm & Hopen).
        by exists (nm0 :: scanned), nm, rest.
      * intros (scanned & nm & rest & Heq & Hnm & Hopen).
        destruct scanned as [|nm1 scanned].
        { injection Heq as <- _. done. }
        injection Heq as <- ->. by exists scanned, nm, rest.
Qed.

Lemma check_trig_true (names : list string) :
  check_trig UNARY_TOKENS BINARY_TOKENS names = true ↔
  trig_in_open_subtree UNARY_TOKENS BINARY_TOKENS names.
Proof.
  unfold check_trig, trig_in_open_subtree, tracker_after.
  apply (check_trig_loop_spec names {| nesting := false; open_count := 0 |}).
Qed.

(** C6: [check_trig] returns true exactly when a trigonometric token
    appears while the tracker of the specification (flag set and counter
    seeded at 1 on a trig token, counter incremented by a binary token and
    decremented by a token that is neither unary nor trig, flag cleared at
    0) still has its flag set; sin, cos, x1 is a violation and sin, x1 is
    not. *)
Theorem check_trig_tracks_open_subtree :
  (∀ names,
     check_trig UNARY_TOKENS BINARY_TOKENS names = true ↔
     trig_in_open_subtree UNARY_TOKENS BINARY_TOKENS names) ∧
  check_trig UNARY_TOKENS BINARY_TOKENS ["sin"; "cos"; "x1"]%string = true ∧
  check_trig UNARY_TOKENS BINARY_TOKENS ["sin"; "x1"]%string = false.
Proof.
  split; [exact check_trig_true|]. split; [done|].
  unfold check_trig. cbn [check_trig_loop].
  assert (bool_decide ("sin"%string ∈ TRIG_TOKENS) = true) as ->
    by (by vm_compute).
  assert (bool_decide ("x1"%string ∈ TRIG_TOKENS) = false) as ->
    by (by vm_compute).
  by repeat case_bool_decide.
Qed.

Lemma check_inv_true (names : list string) :
  check_inv names = true ↔ adjacent_inverses names.
Proof.
  unfold check_inv, adjacent_inverses. generalize INVERSE_TOKENS as dict.
  intros dict. rewrite existsb_exists. split.
  - intros ([i nm] & Hin & Hinv).
    apply list_elem_of_In, list_elem_of_lookup in Hin as (j & Hj).
    rewrite list_lookup_imap in Hj.
    destruct (take (length names - 1) names !! j) as [nm'|] eqn:Hnm;
      [|done].
    injection Hj as <- <-.
    apply lookup_take_Some in Hnm as (Hnm & _).
    destruct (dict !! nm') as [inv|] eqn:Hlook; [|done].
    apply bool_decide_eq_true in Hinv.
    exists j, nm', inv. by rewrite <- Nat.add_1_r.
  - intros (i & a & b & Ha & Hb & Hinv).
    exists (i, a). split.
    + apply list_elem_of_In, list_elem_of_lookup. exists i.
      rewrite list_lookup_imap.
      assert (take (length names - 1) names !! i = Some a) as ->; [|done].
      apply lookup_take_Some. split; [done|].
      apply lookup_lt_Some in Hb. lia.
    + rewrite Hinv. apply bool_decide_eq_true. by rewrite Nat.add_1_r.
Qed.

End ReactiveChecks.

(** ** The checkConstraint decorator *)

Section CheckConstraintProperties.
Variables UNARY_TOKENS BINARY_TOKENS : list string.
Variables max_length min_length max_depth : Z.
Variable height : individual → Z.
Variable func : list individual → list individual.
Variable draws : nat → nat.

Abbreviation passes :=
  (passes_checks UNARY_TOKENS BINARY_TOKENS max_length min_length max_depth
                 height).
Abbreviation checked' :=
  (checked UNARY_TOKENS BINARY_TOKENS max_length min_length max_depth height
           draws).
Abbreviation wrapper_loop' :=
  (wrapper_loop UNARY_TOKENS BINARY_TOKENS max_length min_length max_depth
                height draws).

Lemma random_choice_Ok (seq : list individual) (k k' : nat) (x : individual) :
  random_choice draws seq k = Ok (x, k') → x ∈ seq.
Proof.
  unfold random_choice.
  destruct (seq !! _) as [y|] eqn:Hy; [|done].
  intros [= <- <-]. by eapply list_elem_of_lookup_2.
Qed.

Lemma random_choice_total (seq : list individual) (k : nat) :
  seq ≠ [] → ∃ x, random_choice draws seq k = Ok (x, S k).
Proof.
  intros Hseq. unfold random_choice.
  destruct (lookup_lt_is_Some_2 seq (draws k `mod` length seq)%nat)
    as [x ->]; [|by exists x].
  apply Nat.mod_upper_bound. by destruct seq.
Qed.

(** What the loop body returns for one candidate: the candidate itself when
    it passes the five checks, a kept input otherwise. *)
Lemma checked_Ok (keep_inds : list individual) (ind x : individual)
    (k k' : nat) :
  checked' keep_inds ind k = Ok (x, k') →
  (x = ind ∧ passes ind) ∨ (¬ passes ind ∧ x ∈ keep_inds).
Proof.
  unfold checked, passes_checks.
  case_bool_decide as Hmax;
    [intros ?%random_choice_Ok; right; split; [lia|done]|].
  case_bool_decide as Hmin;
    [intros ?%random_choice_Ok; right; split; [lia|done]|].
  case_bool_decide as Hdepth;
    [intros ?%random_choice_Ok; right; split; [lia|done]|].
  destruct (check_inv (node_name <$> ind)) eqn:Hinv.
  { intros ?%random_choice_Ok. right. split; [|done].
    intros (_ & _ & _ & Hno & _). by apply Hno, check_inv_true. }
  destruct (check_trig UNARY_TOKENS BINARY_TOKENS (node_name <$> ind))
    eqn:Htrig.
  { intros ?%random_choice_Ok. right. split; [|done].
    intros (_ & _ & _ & _ & Hno). by apply Hno, check_trig_true. }
  intros [= <- <-]. left. split; [done|].
  repeat split; try lia.
  - intros Hadj%check_inv_true. congruence.
  - intros Hopen%check_trig_true. congruence.
Qed.

Lemma checked_total (keep_inds : list individual) (ind : individual)
    (k : nat) :
  keep_inds ≠ [] → ∃ x k', checked' keep_inds ind k = Ok (x, k').
Proof.
  intros Hkeep. unfold checked.
  destruct (random_choice_total keep_inds k Hkeep) as [x Hx].
  repeat case_bool_decide; try (by exists x, (S k)).
  destruct (check_inv _); [by exists x, (S k)|].
  destruct (check_trig _ _ _); [by exists x, (S k)|].
  by exists ind, k.
Qed.

Lemma wrapper_loop_Ok (keep_inds new_inds res : list individual)
    (k k' : nat) :
  wrapper_loop' keep_inds new_inds k = Ok (res, k') →
  Forall2 (λ ind x, (x = ind ∧ passes ind) ∨ (¬ passes ind ∧ x ∈ keep_inds))
          new_inds res.
Proof.
  revert res k k'.
  induction new_inds as [|ind new_inds IH]; intros res k k';
    cbn [wrapper_loop].
  - intros [= <- <-]. constructor.
  - intros ([x k1] & Hx & Hrest)%bind_Ok_inv.
    apply bind_Ok_inv in Hrest as ([xs k2] & Hxs & [= <- <-]).
    constructor; [by eapply checked_Ok|by eapply IH].
Qed.

Lemma wrapper_loop_total (keep_inds new_inds : list individual) (k : nat) :
  keep_inds ≠ [] → ∃ res k', wrapper_loop' keep_inds new_inds k = Ok (res, k').
Proof.
  intros Hkeep. revert k.
  induction new_inds as [|ind new_inds IH]; intros k; cbn [wrapper_loop].
  - by exists [], k.
  - destruct (checked_total keep_inds ind k Hkeep) as (x & k1 & ->).
    rewrite bind_Ok. destruct (IH k1) as (xs & k2 & ->).
    rewrite bind_Ok. by exists (x :: xs), k2.
Qed.

(** C7: the list the wrapped operator returns has, at each position, either
    the individual the operator produced there, which then passes the five
    checks, or one of the operator's inputs as they were before the call,
    when the produced individual fails a check; the operator is called
    once, and with at least one input the wrapper returns. *)
Theorem checkConstraint_replaces_invalid (args : list individual) (k : nat) :
  (args ≠ [] →
   ∃ res k',
     wrapper UNARY_TOKENS BINARY_TOKENS max_length min_length max_depth
             height func draws args k = Ok (res, k')) ∧
  (∀ res k',
     wrapper UNARY_TOKENS BINARY_TOKENS max_length min_length max_depth
             height func draws args k = Ok (res, k') →
     Forall2 (λ ind x, (x = ind ∧ passes ind) ∨ (¬ passes ind ∧ x ∈ args))
             (func args) res).
Proof.
  unfold wrapper. split.
  - apply wrapper_loop_total.
  - intros res k'. apply wrapper_loop_Ok.
Qed.

End CheckConstraintProperties.

Lemma checkConstraint_replaces_invalid_witness :
  (∃ res k',
     wrapper unary_names binary_names 10 1 5 chain_height nesting_operator
             (λ _, 0%nat) [sin_x1] 0 = Ok (res, k')) ∧
  Forall2 (λ ind x,
             (x = ind ∧
              passes_checks unary_names binary_names 10 1 5 chain_height ind) ∨
             (¬ passes_checks unary_names binary_names 10 1 5 chain_height ind ∧
              x ∈ [sin_x1]))
          (nesting_operator [sin_x1]) [sin_x1; sin_x1].
Proof.
  destruct (checkConstraint_replaces_invalid unary_names binary_names 10 1 5
              chain_height nesting_operator (λ _, 0%nat) [sin_x1] 0%nat)
    as [Htotal Hvalid].
  split.
  - apply Htotal. discriminate.
  - apply (Hvalid [sin_x1; sin_x1] 1%nat). vm_compute. reflexivity.
Defined.

(** * Further properties of prior.py *)

(** ** make_constraint *)

(** X1: [make_constraint] raises [IndexError] exactly when some token is
    not a token of the library, whatever the mask selects; otherwise it
    returns one row per mask entry, with -inf at the given tokens of the
    selected rows and 0 in every other cell. *)
Theorem make_constraint_behaviour (lib : Library) (mask : list bool)
    (toks : list nat) :
  (Forall (λ t, (t < L lib)%nat) toks →
   ∃ m, make_constraint lib mask toks = Ok m ∧
        length m = length mask ∧
        ∀ (r : nat) (b : bool) (t : nat),
          mask !! r = Some b → (t < L lib)%nat →
          cell m r t = Some (if b && bool_decide (t ∈ toks)
                             then neg_inf else f32_zero)) ∧
  (¬ Forall (λ t, (t < L lib)%nat) toks →
   make_constraint lib mask toks = Raise IndexError).
Proof.
  rewrite make_constraint_mask_of. split; intros Htoks.
  - rewrite bool_decide_true by done. eexists. split; [done|].
    split; [apply length_mask_of|].
    intros r b t Hb Ht.
    assert (r < length mask)%nat as Hr by (by eapply lookup_lt_Some).
    rewrite cell_mask_of by done.
    unfold at_row. by rewrite Hb.
  - by rewrite bool_decide_false.
Qed.

Lemma make_constraint_behaviour_witness :
  (∃ m, make_constraint lib_AB [true; false] [1; 2]%nat = Ok m ∧
        length m = length [true; false] ∧
        ∀ (r : nat) (b : bool) (t : nat),
          [true; false] !! r = Some b → (t < L lib_AB)%nat →
          cell m r t = Some (if b && bool_decide (t ∈ [1; 2]%nat)
                             then neg_inf else f32_zero)) ∧
  make_constraint lib_AB [false] [7%nat] = Raise IndexError.
Proof.
  split.
  - apply (make_constraint_behaviour lib_AB [true; false] [1; 2]%nat).
    repeat constructor.
  - apply (make_constraint_behaviour lib_AB [false] [7%nat]).
    intros Hall. inversion Hall as [|? ? Hlt _]; subst.
    vm_compute in Hlt. lia.
Defined.

(** ** The joint mask is the union of what the constraints forbid *)

(** X2: on well-formed inputs a [JointPrior] whose constraints all have a
    masking policy returns a mask that is -inf at a cell exactly when the
    step mask of one of its constraints is -inf there, and 0 at the other
    cells; with no constraint at all it is all zeros. *)
Theorem JointPrior_call_forbids_union (lib : Library)
    (priors : list Constraint) (actions : ndarray2)
    (parent sibling dangling : list Z) :
  Library_wf lib → Forall (Constraint_wf lib) priors →
  length parent = shape0 actions → length dangling = shape0 actions →
  Forall (λ c, not_implemented c = false) priors →
  ∃ m,
    JointPrior_call lib priors actions parent sibling dangling = Ok m ∧
    ∀ (r t : nat), (r < shape0 actions)%nat → (t < L lib)%nat →
      ((∃ c mc, c ∈ priors ∧
                call lib c actions parent sibling dangling = Ok mc ∧
                cell mc r t = Some neg_inf) →
       cell m r t = Some neg_inf) ∧
      (¬ (∃ c mc, c ∈ priors ∧
                  call lib c actions parent sibling dangling = Ok mc ∧
                  cell mc r t = Some neg_inf) →
       cell m r t = Some f32_zero).
Proof.
  intros Hlib Hwf Hparent Hdangling Himpl.
  rewrite JointPrior_call_closed_form by done.
  assert (existsb not_implemented priors = false) as ->.
  { apply not_true_is_false. intros (c & Hc & Hni)%existsb_exists.
    apply list_elem_of_In in Hc.
    rewrite (proj1 (Forall_forall _ _) Himpl c Hc) in Hni. done. }
  eexists. split; [done|]. intros r t Hr Ht.
  rewrite cell_mask_of by done.
  set (hit := existsb _ priors).
  assert (hit = true ↔
          ∃ c mc, c ∈ priors ∧
                  call lib c actions parent sibling dangling = Ok mc ∧
                  cell mc r t = Some neg_inf) as Hhit.
  { unfold hit. rewrite existsb_exists. split.
    - intros (c & Hc%list_elem_of_In & Hf). eexists c, _.
      split; [done|]. split.
      + rewrite call_closed_form
          by (done || by eapply (proj1 (Forall_forall _ _) Hwf)).
        by rewrite (proj1 (Forall_forall _ _) Himpl c Hc).
      + rewrite cell_mask_of by done. by rewrite Hf.
    - intros (c & mc & Hc & Hmc & Hcell). exists c.
      split; [by apply list_elem_of_In|].
      rewrite call_closed_form in Hmc
        by (done || by eapply (proj1 (Forall_forall _ _) Hwf)).
      rewrite (proj1 (Forall_forall _ _) Himpl c Hc) in Hmc.
      injection Hmc as <-. rewrite cell_mask_of in Hcell by done.
      by destruct (Constraint_forbids lib c actions parent dangling r t). }
  split; intros Hex.
  - by rewrite (proj2 Hhit Hex).
  - destruct hit; [|done]. destruct Hex. by apply Hhit.
Qed.

Lemma JointPrior_call_forbids_union_witness :
  ∃ m,
    JointPrior_call lib_AB
      [LengthConstraint (Some 4) None; ChildConstraint [3%nat] [3%nat] [1]]
      actions_B [1] [0] [1] = Ok m ∧
    ∀ (r t : nat), (r < shape0 actions_B)%nat → (t < L lib_AB)%nat →
      ((∃ c mc,
          c ∈ [LengthConstraint (Some 4) None;
               ChildConstraint [3%nat] [3%nat] [1]] ∧
          call lib_AB c actions_B [1] [0] [1] = Ok mc ∧
          cell mc r t = Some neg_inf) →
       cell m r t = Some neg_inf) ∧
      (¬ (∃ c mc,
            c ∈ [LengthConstraint (Some 4) None;
                 ChildConstraint [3%nat] [3%nat] [1]] ∧
            call lib_AB c actions_B [1] [0] [1] = Ok mc ∧
            cell mc r t = Some neg_inf) →
       cell m r t = Some f32_zero).
Proof.
  apply (JointPrior_call_forbids_union lib_AB
           [LengthConstraint (Some 4) None; ChildConstraint [3%nat] [3%nat] [1]]
           actions_B [1] [0] [1]).
  - exact lib_AB_wf.
  - repeat constructor.
  - reflexivity.
  - reflexivity.
  - repeat constructor.
Defined.

(** ** What a length constraint leaves open *)

Section LengthConstraintBudget.
Variable lib : Library.

Lemma LengthConstraint_forbids_terminal mn mx (i d : Z) (t : nat) :
  t ∈ terminal_tokens lib → t ∉ unary_tokens lib → t ∉ binary_tokens lib →
  LengthConstraint_forbids lib mn mx i d t =
  match mn with
  | Some a => bool_decide (i + 2 < a) && bool_decide (d = 1)
  | None => false
  end.
Proof.
  intros Ht Hu Hb. unfold LengthConstraint_forbids.
  rewrite (bool_decide_true (t ∈ terminal_tokens lib)) by done.
  rewrite (bool_decide_false (t ∈ unary_tokens lib)) by done.
  rewrite (bool_decide_false (t ∈ binary_tokens lib)) by done.
  destruct mx, mn; by rewrite ?andb_false_r, ?andb_true_r.
Qed.

Lemma LengthConstraint_forbids_unary mn mx (i d : Z) (t : nat) :
  t ∈ unary_tokens lib → t ∉ terminal_tokens lib → t ∉ binary_tokens lib →
  LengthConstraint_forbids lib mn mx i d t =
  match mx with
  | Some b => bool_decide (b `div` 2 ≤ i + 2) && bool_decide (d = b - (i + 1))
  | None => false
  end.
Proof.
  intros Hu Ht Hb. unfold LengthConstraint_forbids.
  rewrite (bool_decide_false (t ∈ terminal_tokens lib)) by done.
  rewrite (bool_decide_true (t ∈ unary_tokens lib)) by done.
  rewrite (bool_decide_false (t ∈ binary_tokens lib)) by done.
  destruct mx, mn;
    by rewrite ?andb_false_r, ?andb_true_r, ?orb_false_r, ?orb_false_l.
Qed.

(** X3: a length constraint whose minimum does not exceed its maximum never
    masks a whole row: in every row a terminal token or a unary token stays
    allowed (for a library that has a token listed only as terminal and one
    listed only as unary). *)
Theorem LengthConstraint_leaves_a_choice
    (mn mx : option Z) (actions : ndarray2) (parent sibling dangling : list Z)
    (t0 u0 : nat) :
  Library_wf lib →
  length dangling = shape0 actions →
  (∀ a b, mn = Some a → mx = Some b → a ≤ b) →
  t0 ∈ terminal_tokens lib → t0 ∉ unary_tokens lib → t0 ∉ binary_tokens lib →
  u0 ∈ unary_tokens lib → u0 ∉ terminal_tokens lib → u0 ∉ binary_tokens lib →
  ∃ m,
    LengthConstraint_call lib mn mx actions parent sibling dangling = Ok m ∧
    ∀ (r : nat) (d : Z), dangling !! r = Some d →
      cell m r t0 = Some f32_zero ∨ cell m r u0 = Some f32_zero.
Proof.
  intros Hwf Hlen Hbounds Ht0 Ht0u Ht0b Hu0 Hu0t Hu0b.
  eexists. split; [by apply LengthConstraint_call_mask_of|].
  intros r d Hd.
  assert (r < shape0 actions)%nat as Hr
    by (rewrite <- Hlen; by eapply lookup_lt_Some).
  pose proof (Library_wf_terminal lib t0 Hwf Ht0) as Ht0L.
  assert (u0 < L lib)%nat as Hu0L.
  { destruct Hwf as (_ & Hun & _).
    by eapply (proj1 (Forall_forall _ _) Hun). }
  rewrite !cell_mask_of, Hd by done. cbn [from_option].
  rewrite LengthConstraint_forbids_terminal by done.
  rewrite LengthConstraint_forbids_unary by done.
  set (i := Z.of_nat (shape1 actions) - 1).
  destruct mn as [a|]; [|by left].
  destruct (decide (i + 2 < a ∧ d = 1)) as [[Hi ->]|Hfree].
  - right. destruct mx as [b|]; [|done].
    specialize (Hbounds a b eq_refl eq_refl).
    rewrite (bool_decide_false (1 = b - (i + 1))) by lia.
    by rewrite andb_false_r.
  - left. repeat case_bool_decide; try done. lia.
Qed.

(** X4: a row that can still close within the maximum length keeps that
    property: when the dangling count [d] is at most [remaining] and at
    most [i + 2], a binary token the mask allows leaves [d + 1] within the
    next step's budget and a unary token it allows leaves [d] within it. *)
Theorem LengthConstraint_keeps_budget
    (mn : option Z) (mx : Z) (actions : ndarray2)
    (parent sibling dangling : list Z) :
  Library_wf lib →
  length dangling = shape0 actions →
  let i := Z.of_nat (shape1 actions) - 1 in
  let remaining := mx - (i + 1) in
  ∃ m,
    LengthConstraint_call lib mn (Some mx) actions parent sibling dangling
      = Ok m ∧
    ∀ (r : nat) (d : Z) (t : nat),
      dangling !! r = Some d → d ≤ remaining → d ≤ i + 2 →
      cell m r t = Some f32_zero →
      (t ∈ binary_tokens lib → d + 1 ≤ remaining - 1 ∧ d + 1 ≤ (i + 1) + 2) ∧
      (t ∈ unary_tokens lib → d ≤ remaining - 1 ∧ d ≤ (i + 1) + 2).
Proof.
  intros Hwf Hlen i remaining.
  eexists. split; [by apply LengthConstraint_call_mask_of|].
  intros r d t Hd Hrem Hdi Hcell.
  assert (r < shape0 actions)%nat as Hr
    by (rewrite <- Hlen; by eapply lookup_lt_Some).
  pose proof (Z.mul_div_le mx 2 ltac:(lia)) as Hdiv.
  assert (∀ t', t' ∈ binary_tokens lib ∨ t' ∈ unary_tokens lib →
                (t' < L lib)%nat) as HL.
  { destruct Hwf as (_ & Hun & Hbin). intros t' [Ht'|Ht'].
    - by eapply (proj1 (Forall_forall _ _) Hbin).
    - by eapply (proj1 (Forall_forall _ _) Hun). }
  split; intros Ht.
  - rewrite cell_mask_of, Hd in Hcell by auto. cbn [from_option] in Hcell.
    injection Hcell as Hcell.
    destruct (LengthConstraint_forbids _ _ _ _ _ _) eqn:Hf; [done|].
    clear Hcell. unfold LengthConstraint_forbids in Hf. fold i in Hf.
    rewrite (bool_decide_true (t ∈ binary_tokens lib)) in Hf by done.
    apply orb_false_elim in Hf as [Hf _].
    apply andb_false_iff in Hf as [Hf|Hf].
    + apply bool_decide_eq_false in Hf. unfold remaining. lia.
    + apply orb_false_elim in Hf as [Hf _].
      rewrite andb_true_r in Hf. apply bool_decide_eq_false in Hf.
      unfold remaining in *. lia.
  - rewrite cell_mask_of, Hd in Hcell by auto. cbn [from_option] in Hcell.
    injection Hcell as Hcell.
    destruct (LengthConstraint_forbids _ _ _ _ _ _) eqn:Hf; [done|].
    clear Hcell. unfold LengthConstraint_forbids in Hf. fold i in Hf.
    rewrite (bool_decide_true (t ∈ unary_tokens lib)) in Hf by done.
    apply orb_false_elim in Hf as [Hf _].
    apply andb_false_iff in Hf as [Hf|Hf].
    + apply bool_decide_eq_false in Hf. unfold remaining. lia.
    + apply orb_false_elim in Hf as [_ Hf].
      rewrite andb_true_r in Hf. apply bool_decide_eq_false in Hf.
      unfold remaining in *. lia.
Qed.

End LengthConstraintBudget.

Lemma LengthConstraint_leaves_a_choice_witness :
  ∃ m,
    LengthConstraint_call lib_AB (Some 4) (Some 6) actions_B [0] [0] [1]
      = Ok m ∧
    ∀ (r : nat) (d : Z), [1] !! r = Some d →
      cell m r 0 = Some f32_zero ∨ cell m r 3 = Some f32_zero.
Proof.
  apply (LengthConstraint_leaves_a_choice lib_AB (Some 4) (Some 6) actions_B
           [0] [0] [1] 0%nat 3%nat).
  - exact lib_AB_wf.
  - reflexivity.
  - intros a b [= <-] [= <-]. lia.
  - apply (bool_decide_unpack _). vm_compute. exact I.
  - apply (bool_decide_unpack _). vm_compute. exact I.
  - apply (bool_decide_unpack _). vm_compute. exact I.
  - apply (bool_decide_unpack _). vm_compute. exact I.
  - apply (bool_decide_unpack _). vm_compute. exact I.
  - apply (bool_decide_unpack _). vm_compute. exact I.
Defined.

Lemma LengthConstraint_keeps_budget_witness :
  let i := Z.of_nat (shape1 actions_B) - 1 in
  let remaining := 6 - (i + 1) in
  ∃ m,
    LengthConstraint_call lib_AB (Some 4) (Some 6) actions_B [0] [0] [1]
      = Ok m ∧
    ∀ (r : nat) (d : Z) (t : nat),
      [1] !! r = Some d → d ≤ remaining → d ≤ i + 2 →
      cell m r t = Some f32_zero →
      (t ∈ binary_tokens lib_AB →
       d + 1 ≤ remaining - 1 ∧ d + 1 ≤ (i + 1) + 2) ∧
      (t ∈ unary_tokens lib_AB → d ≤ remaining - 1 ∧ d ≤ (i + 1) + 2).
Proof.
  apply (LengthConstraint_keeps_budget lib_AB (Some 4) 6 actions_B
           [0] [0] [1]).
  - exact lib_AB_wf.
  - reflexivity.
Defined.

(** ** The inverse-token constraint *)

Section InverseUnaryConstraintProperties.
Variable lib : Library.

(** X5: building an [InverseUnaryConstraint] fails on the assertion of
    [ChildConstraint.__init__] exactly when the library has no inverse
    tokens. *)
Theorem InverseUnaryConstraint_init_asserts :
  InverseUnaryConstraint_init lib = Raise AssertionError ↔
  inverse_tokens lib = [].
Proof.
  unfold InverseUnaryConstraint_init.
  rewrite ChildConstraint_init_asserts.
  by destruct (inverse_tokens lib).
Qed.

(** X6: the step mask of a constructed [InverseUnaryConstraint] is -inf at
    token [t] of a row with adjusted parent [p] exactly when the library
    lists [t] as the inverse of a token whose adjusted index is [p], and 0
    at every other cell. *)
Theorem InverseUnaryConstraint_step_mask
    (c : Constraint) (actions : ndarray2) (parent sibling dangling : list Z) :
  InverseUnaryConstraint_init lib = Ok c →
  Forall (λ pc, (pc.2 < L lib)%nat) (inverse_tokens lib) →
  length parent = shape0 actions →
  ∃ m,
    call lib c actions parent sibling dangling = Ok m ∧
    ∀ (r : nat) (p : Z) (t : nat),
      parent !! r = Some p → (t < L lib)%nat →
      let forbidden :=
        ∃ pk : nat, (pk, t) ∈ inverse_tokens lib ∧
                    parent_adjust lib !! pk = Some p in
      (forbidden → cell m r t = Some neg_inf) ∧
      (¬ forbidden → cell m r t = Some f32_zero).
Proof.
  unfold InverseUnaryConstraint_init.
  intros (adj & Hadj & ->)%ChildConstraint_init_Ok Hwf Hlen.
  eexists. split.
  { cbn [call]. apply ChildConstraint_call_mask_of; [|done].
    apply Forall_fmap. by eapply Forall_impl. }
  intros r p t Hp HtL.
  set (forbidden := ∃ pk : nat, (pk, t) ∈ inverse_tokens lib ∧
                                parent_adjust lib !! pk = Some p).
  assert (r < shape0 actions)%nat as Hr
    by (rewrite <- Hlen; by eapply lookup_lt_Some).
  rewrite cell_mask_of, Hp by done. cbn [from_option].
  unfold ChildConstraint_forbids.
  assert ((t, p) ∈ zip (snd <$> inverse_tokens lib) adj ↔ forbidden) as Hiff.
  { rewrite elem_of_zip_lookup. unfold forbidden. split.
    - intros (k & Hc & Ha).
      apply (parent_adjust_of_lookup lib _ adj k p Hadj) in Ha
        as (pk & Hpk & Hpa).
      exists pk. split; [|done].
      rewrite list_lookup_fmap in Hc, Hpk.
      destruct (inverse_tokens lib !! k) as [[pk' t']|] eqn:Hk; [|done].
      cbn in Hc, Hpk. simplify_eq. by eapply list_elem_of_lookup_2.
    - intros (pk & (k & Hk)%list_elem_of_lookup & Hpa). exists k. split.
      + by rewrite list_lookup_fmap, Hk.
      + apply (parent_adjust_of_lookup lib _ adj k p Hadj). exists pk.
        split; [|done]. by rewrite list_lookup_fmap, Hk. }
  split; intros Hf.
  - by rewrite bool_decide_true by (by apply Hiff).
  - rewrite bool_decide_false; [done|]. intros Hin. by apply Hf, Hiff.
Qed.

End InverseUnaryConstraintProperties.

Lemma InverseUnaryConstraint_step_mask_witness :
  ∃ m,
    call lib_C (ChildConstraint [3; 2]%nat [2; 3]%nat [1; 2])
         actions_C [1] [-1] [1] = Ok m ∧
    ∀ (r : nat) (p : Z) (t : nat),
      [1] !! r = Some p → (t < L lib_C)%nat →
      let forbidden :=
        ∃ pk : nat, (pk, t) ∈ inverse_tokens lib_C ∧
                    parent_adjust lib_C !! pk = Some p in
      (forbidden → cell m r t = Some neg_inf) ∧
      (¬ forbidden → cell m r t = Some f32_zero).
Proof.
  apply (InverseUnaryConstraint_step_mask lib_C
           (ChildConstraint [3; 2]%nat [2; 3]%nat [1; 2])
           actions_C [1] [-1] [1]).
  - reflexivity.
  - repeat constructor.
  - reflexivity.
Defined.

(** * Further properties of symbolic_math.py *)

(** ** The decorator on a valid population *)

Section CheckConstraintClosure.
Variables UNARY_TOKENS BINARY_TOKENS : list string.
Variables max_length min_length max_depth : Z.
Variable height : individual → Z.
Variable func : list individual → list individual.
Variable draws : nat → nat.

Abbreviation valid :=
  (passes_checks UNARY_TOKENS BINARY_TOKENS max_length min_length max_depth
                 height).

Lemma checked_valid (keep_inds : list individual) (ind : individual)
    (k : nat) :
  valid ind →
  checked UNARY_TOKENS BINARY_TOKENS max_length min_length max_depth height
          draws keep_inds ind k = Ok (ind, k).
Proof.
  intros (Hmax & Hmin & Hdepth & Hinv & Htrig). unfold checked.
  rewrite !bool_decide_false by lia.
  destruct (check_inv _) eqn:Hci; [by apply check_inv_true in Hci|].
  destruct (check_trig _ _ _) eqn:Hct; [by apply check_trig_true in Hct|].
  done.
Qed.

Lemma wrapper_loop_valid (keep_inds new_inds : list individual) (k : nat) :
  Forall valid new_inds →
  wrapper_loop UNARY_TOKENS BINARY_TOKENS max_length min_length max_depth
               height draws keep_inds new_inds k = Ok (new_inds, k).
Proof.
  induction 1 as [|ind new_inds Hind _ IH]; cbn [wrapper_loop]; [done|].
  by rewrite checked_valid, bind_Ok, IH, bind_Ok.
Qed.

(** X7: when every individual the operator returns passes the checks, the
    wrapper returns them unchanged and draws no random number, even when
    called without a positional argument; and when every input passes the
    checks, so does every individual the wrapper returns. *)
Theorem checkConstraint_keeps_population_valid (args : list individual)
    (k : nat) :
  (Forall valid (func args) →
   wrapper UNARY_TOKENS BINARY_TOKENS max_length min_length max_depth
           height func draws args k = Ok (func args, k)) ∧
  (∀ res k',
     wrapper UNARY_TOKENS BINARY_TOKENS max_length min_length max_depth
             height func draws args k = Ok (res, k') →
     Forall valid args → Forall valid res).
Proof.
  unfold wrapper. split; [apply wrapper_loop_valid|].
  intros res k' Hres%wrapper_loop_Ok Hargs.
  induction Hres as [|ind x new_inds res Hx _ IH]; constructor; [|done].
  destruct Hx as [[-> Hx]|[_ Hx]]; [done|].
  by eapply (proj1 (Forall_forall _ _) Hargs).
Qed.

End CheckConstraintClosure.

Lemma checkConstraint_keeps_population_valid_witness :
  wrapper unary_names binary_names 10 1 5 chain_height (λ args, args)
          (λ _, 0%nat) [sin_x1] 0 = Ok ([sin_x1], 0%nat) ∧
  Forall (passes_checks unary_names binary_names 10 1 5 chain_height)
         [sin_x1; sin_x1].
Proof.
  assert (passes_checks unary_names binary_names 10 1 5 chain_height sin_x1)
    as Hvalid.
  { split; [by vm_compute|]. split; [by vm_compute|].
    split; [by vm_compute|]. split.
    - intros Hadj%check_inv_true. vm_compute in Hadj. congruence.
    - intros Hopen%check_trig_true. vm_compute in Hopen. congruence. }
  destruct (checkConstraint_keeps_population_valid unary_names binary_names
              10 1 5 chain_height (λ args, args) (λ _, 0%nat) [sin_x1] 0%nat)
    as [Hsame _].
  destruct (checkConstraint_keeps_population_valid unary_names binary_names
              10 1 5 chain_height nesting_operator (λ _, 0%nat) [sin_x1]
              0%nat) as [_ Hclosed].
  split.
  - apply Hsame. by constructor.
  - apply (Hclosed [sin_x1; sin_x1] 1%nat); [by vm_compute|by constructor].
Defined.

(** ** check_inv *)

(** X8: [check_inv] returns true exactly when some token is immediately
    followed by the token [INVERSE_TOKENS] maps it to; on an empty or
    one-token sequence it returns false. *)
Theorem check_inv_finds_adjacent_inverses (names : list string) :
  (check_inv names = true ↔
   ∃ (i : nat) (a b : string),
     names !! i = Some a ∧ names !! S i = Some b ∧
     INVERSE_TOKENS !! a = Some b) ∧
  ((length names ≤ 1)%nat → check_inv names = false).
Proof.
  split; [apply check_inv_true|].
  intros Hlen. apply not_true_is_false.
  intros (i & a & b & _ & Hb & _)%check_inv_true.
  apply lookup_lt_Some in Hb. lia.
Qed.

Lemma check_inv_finds_adjacent_inverses_witness :
  (check_inv ["add"; "exp"; "log"; "x1"]%string = true ↔
   ∃ (i : nat) (a b : string),
     ["add"; "exp"; "log"; "x1"]%string !! i = Some a ∧
     ["add"; "exp"; "log"; "x1"]%string !! S i = Some b ∧
     INVERSE_TOKENS !! a = Some b) ∧
  check_inv ["exp"]%string = false.
Proof.
  split.
  - apply (check_inv_finds_adjacent_inverses ["add"; "exp"; "log"; "x1"]%string).
  - apply (check_inv_finds_adjacent_inverses ["exp"]%string). cbn. lia.
Defined.

Lemma INVERSE_TOKENS_symmetric (a b : string) :
  INVERSE_TOKENS !! a = Some b → INVERSE_TOKENS !! b = Some a.
Proof.
  intros Hab%elem_of_map_to_list.
  assert (forallb (λ kv, bool_decide (INVERSE_TOKENS !! kv.2 = Some kv.1))
                  (map_to_list INVERSE_TOKENS) = true) as Hall
    by (vm_compute; reflexivity).
  rewrite forallb_forall in Hall.
  apply list_elem_of_In, Hall in Hab.
  by apply bool_decide_eq_true in Hab.
Qed.

Lemma adjacent_inverses_reverse (names : list string) :
  adjacent_inverses names → adjacent_inverses (reverse names).
Proof.
  intros (i & a & b & Ha & Hb & Hab).
  pose proof (lookup_lt_Some _ _ _ Hb) as Hlt.
  exists (length names - S (S i))%nat, b, a. split; [|split].
  - rewrite reverse_lookup by lia. rewrite <- Hb. f_equal. lia.
  - rewrite reverse_lookup by lia. rewrite <- Ha. f_equal. lia.
  - by apply INVERSE_TOKENS_symmetric.
Qed.

(** X9: [INVERSE_TOKENS] is symmetric, so [check_inv] gives the same answer
    on a sequence and on its reverse: a pair of inverse tokens is found
    whichever of the two comes first. *)
Theorem check_inv_reverse (names : list string) :
  (∀ a b, INVERSE_TOKENS !! a = Some b → INVERSE_TOKENS !! b = Some a) ∧
  check_inv (reverse names) = check_inv names.
Proof.
  split; [apply INVERSE_TOKENS_symmetric|].
  destruct (check_inv names) eqn:Hn.
  - by apply check_inv_true, adjacent_inverses_reverse, check_inv_true.
  - apply not_true_is_false. intros Hr%check_inv_true.
    apply adjacent_inverses_reverse in Hr.
    rewrite reverse_involutive in Hr. apply check_inv_true in Hr. congruence.
Qed.

(** ** Expression trees *)

Lemma tree_induction (P : tree → Prop) :
  (∀ nd cs, Forall P cs → P (Tree nd cs)) → ∀ t, P t.
Proof.
  intros Hstep. fix IH 1. intros [nd cs]. apply Hstep.
  revert cs. fix IHcs 1. intros [|c cs]; constructor; [apply IH|apply IHcs].
Qed.

Lemma tree_all_Tree (P : node → nat → Prop) (nd : node) (cs : list tree) :
  tree_all P (Tree nd cs) ↔ P nd (length cs) ∧ Forall (tree_all P) cs.
Proof.
  cbn [tree_all]. apply and_iff_compat_l.
  induction cs as [|c cs IH]; [by split; [constructor|]|].
  rewrite Forall_cons, <- IH. done.
Qed.

Lemma flatten_Tree (nd : node) (cs : list tree) :
  flatten (Tree nd cs) = nd :: flatten_all cs.
Proof. reflexivity. Qed.

Lemma flatten_all_cons (c : tree) (cs : list tree) :
  flatten_all (c :: cs) = flatten c ++ flatten_all cs.
Proof. reflexivity. Qed.

Lemma has_trig_Tree (nd : node) (cs : list tree) :
  has_trig (Tree nd cs) =
  bool_decide (node_name nd ∈ TRIG_TOKENS) || existsb has_trig cs.
Proof. reflexivity. Qed.

Lemma trig_nested_Tree (nd : node) (cs : list tree) :
  trig_nested (Tree nd cs) =
  (bool_decide (node_name nd ∈ TRIG_TOKENS) && existsb has_trig cs) ||
  existsb trig_nested cs.
Proof. reflexivity. Qed.

Lemma trig_nested_has_trig (t : tree) :
  has_trig t = false → trig_nested t = false.
Proof.
  induction t as [nd cs IH] using tree_induction.
  rewrite has_trig_Tree, trig_nested_Tree.
  intros [-> Hcs]%orb_false_elim. cbn [andb orb].
  induction IH as [|c cs Hc _ IHcs]; [done|].
  cbn [existsb] in *. apply orb_false_elim in Hcs as [Hc' Hcs].
  by rewrite Hc, IHcs.
Qed.

(** ** check_trig on expression trees *)

Section CheckTrigOnTrees.
Variables UNARY_TOKENS BINARY_TOKENS : list string.

Abbreviation loop := (check_trig_loop UNARY_TOKENS BINARY_TOKENS).
Abbreviation tabled' := (tabled UNARY_TOKENS BINARY_TOKENS).

(** While no trigonometric subtree is open the counter is not read. *)
Lemma check_trig_loop_closed (names : list string) (d d' : Z) :
  loop names false d = loop names false d'.
Proof.
  induction names as [|nm names IH]; [done|]. cbn [check_trig_loop].
  by case_bool_decide.
Qed.

Lemma check_trig_loop_flag (names : list string) (d : Z) :
  (if bool_decide (d = 0) then loop names false d else loop names true d) =
  loop names (negb (bool_decide (d = 0))) d.
Proof. by case_bool_decide. Qed.

(** Scanning a subtree while a trigonometric subtree with [d] open slots
    is open: a trig token in it is a violation, else one slot is filled. *)
Lemma check_trig_loop_open_subtree (t : tree) :
  tabled' t → well_formed t →
  ∀ (d : Z) (rest : list string), 1 ≤ d →
    loop ((node_name <$> flatten t) ++ rest) true d =
    if has_trig t then true
    else loop rest (negb (bool_decide (d - 1 = 0))) (d - 1).
Proof.
  induction t as [nd cs IH] using tree_induction.
  intros [Htab Htabs]%tree_all_Tree [Hwf Hwfs]%tree_all_Tree d rest Hd.
  assert (∀ (d : Z) (rest : list string), Z.of_nat (length cs) ≤ d →
            loop ((node_name <$> flatten_all cs) ++ rest)
                 (negb (bool_decide (d = 0))) d =
            if existsb has_trig cs then true
            else loop rest
                   (negb (bool_decide (d - Z.of_nat (length cs) = 0)))
                   (d - Z.of_nat (length cs))) as Hforest.
  { clear Htab Hwf d rest Hd.
    induction IH as [|c cs Hc _ IHcs]; intros d rest Hd.
    - cbn [length existsb flatten_all fmap list_fmap app].
      by rewrite Z.sub_0_r.
    - apply Forall_cons in Htabs as [Htc Htabs].
      apply Forall_cons in Hwfs as [Hwc Hwfs].
      rewrite flatten_all_cons, fmap_app, <- app_assoc.
      cbn [length] in Hd. rewrite (bool_decide_false (d = 0)) by lia.
      cbn [negb existsb]. rewrite Hc by (done || lia).
      destruct (has_trig c); [done|]. cbn [orb].
      rewrite IHcs by (done || lia). cbn [length].
      by replace (d - 1 - Z.of_nat (length cs))
        with (d - Z.of_nat (S (length cs))) by lia. }
  rewrite flatten_Tree, has_trig_Tree. cbn [fmap list_fmap app].
  cbn [check_trig_loop].
  destruct (decide (node_name nd ∈ TRIG_TOKENS)) as [Htrig|Htrig].
  { by rewrite bool_decide_true by done. }
  rewrite (bool_decide_false (node_name nd ∈ TRIG_TOKENS)) by done.
  cbn [orb]. rewrite check_trig_loop_flag.
  unfold arity_of_name in Htab.
  rewrite (bool_decide_false (node_name nd ∈ TRIG_TOKENS)) in Htab by done.
  rewrite Hwf in Htab.
  destruct (decide (node_name nd ∈ BINARY_TOKENS)) as [Hbin|Hbin].
  - rewrite (bool_decide_true (node_name nd ∈ BINARY_TOKENS)) in * by done.
    rewrite Hforest by lia. rewrite Htab.
    by replace (d + 1 - Z.of_nat 2) with (d - 1) by lia.
  - rewrite (bool_decide_false (node_name nd ∈ BINARY_TOKENS)) in * by done.
    destruct (decide (node_name nd ∈ UNARY_TOKENS)) as [Hun|Hun].
    + rewrite (bool_decide_true (node_name nd ∈ UNARY_TOKENS)) in Htab by done.
      rewrite (bool_decide_false (node_name nd ∉ UNARY_TOKENS)) by auto.
      rewrite Hforest by lia. rewrite Htab.
      by replace (d - Z.of_nat 1) with (d - 1) by lia.
    + rewrite (bool_decide_false (node_name nd ∈ UNARY_TOKENS)) in Htab
        by done.
      rewrite (bool_decide_true (node_name nd ∉ UNARY_TOKENS)) by done.
      rewrite Hforest by lia. rewrite Htab.
      by replace (d - 1 - Z.of_nat 0) with (d - 1) by lia.
Qed.

(** Scanning a subtree while no trigonometric subtree is open. *)
Lemma check_trig_loop_subtree (t : tree) :
  tabled' t → well_formed t →
  ∀ (d : Z) (rest : list string),
    loop ((node_name <$> flatten t) ++ rest) false d =
    if trig_nested t then true else loop rest false 0.
Proof.
  induction t as [nd cs IH] using tree_induction.
  intros [Htab Htabs]%tree_all_Tree [Hwf Hwfs]%tree_all_Tree d rest.
  rewrite flatten_Tree, trig_nested_Tree. cbn [fmap list_fmap app].
  cbn [check_trig_loop].
  destruct (decide (node_name nd ∈ TRIG_TOKENS)) as [Htrig|Htrig].
  - rewrite (bool_decide_true (node_name nd ∈ TRIG_TOKENS)) by done.
    cbn [andb]. unfold arity_of_name in Htab.
    rewrite (bool_decide_true (node_name nd ∈ TRIG_TOKENS)) in Htab by done.
    rewrite Hwf in Htab. destruct cs as [|c [|c' cs]]; try done.
    apply Forall_cons in Htabs as [Htc _].
    apply Forall_cons in Hwfs as [Hwc _].
    cbn [flatten_all existsb]. rewrite app_nil_r.
    rewrite check_trig_loop_open_subtree by (done || lia).
    rewrite !orb_false_r. destruct (has_trig c) eqn:Hc; [done|].
    rewrite (trig_nested_has_trig c Hc). cbn [orb].
    by rewrite bool_decide_true by lia.
  - rewrite (bool_decide_false (node_name nd ∈ TRIG_TOKENS)) by done.
    cbn [andb orb]. clear Htab Hwf.
    revert d. induction IH as [|c cs Hc _ IHcs]; intros d.
    + cbn [flatten_all fmap list_fmap app existsb].
      apply check_trig_loop_closed.
    + apply Forall_cons in Htabs as [Htc Htabs].
      apply Forall_cons in Hwfs as [Hwc Hwfs].
      rewrite flatten_all_cons, fmap_app, <- app_assoc.
      cbn [existsb]. rewrite Hc by done.
      destruct (trig_nested c); [done|]. cbn [orb]. by apply IHcs.
Qed.

(** X10: on the depth-first token sequence of an expression tree whose
    nodes have the arities the token tables give their names, [check_trig]
    returns true exactly when a trigonometric node has a trigonometric node
    below it, as its docstring says. *)
Theorem check_trig_on_trees (t : tree) :
  tabled' t → well_formed t →
  check_trig UNARY_TOKENS BINARY_TOKENS (node_name <$> flatten t) =
  trig_nested t.
Proof.
  intros Htab Hwf. unfold check_trig.
  rewrite <- (app_nil_r (node_name <$> flatten t)).
  rewrite check_trig_loop_subtree by done.
  by destruct (trig_nested t).
Qed.

End CheckTrigOnTrees.

Lemma check_trig_on_trees_witness :
  check_trig unary_names binary_names (node_name <$> flatten tree_sin_cos_x1)
    = trig_nested tree_sin_cos_x1 ∧
  check_trig unary_names binary_names (node_name <$> flatten tree_add_sin_cos)
    = trig_nested tree_add_sin_cos.
Proof.
  split.
  - apply (check_trig_on_trees unary_names binary_names tree_sin_cos_x1);
      vm_compute; tauto.
  - apply (check_trig_on_trees unary_names binary_names tree_add_sin_cos);
      vm_compute; tauto.
Defined.

(** ** stringify_for_sympy *)

Section StringifyProperties.
Variable prim_format : node → list string → result string.

Abbreviation convert := (convert_inverse_prim prim_format).
Abbreviation step :=
  (λ '(stack, str) nd, unwind prim_format nd [] stack str).

Lemma unwind_unfold (prim : node) (args : list string)
    (below : list (node * list string)) (str : string) :
  unwind prim_format prim args below str =
  if bool_decide (length args = node_arity prim)
  then str' ← convert prim args; deliver prim_format below str'
  else Ok ((prim, args) :: below, str).
Proof. destruct below as [|[prim' args'] below]; reflexivity. Qed.

Lemma foldlM_app {A B : Type} (f : B → A → result B) (b : B) (l k : list A) :
  foldlM f b (l ++ k) = b' ← foldlM f b l; foldlM f b' k.
Proof.
  revert b. induction l as [|x l IH]; intros b; cbn [foldlM app]; [done|].
  destruct (f b x); [|done]. by rewrite !bind_Ok.
Qed.

Lemma render_Tree (nd : node) (cs : list tree) :
  render prim_format (Tree nd cs) =
  args ← render_all prim_format cs; convert nd args.
Proof. reflexivity. Qed.

Lemma render_all_cons (c : tree) (cs : list tree) :
  render_all prim_format (c :: cs) =
  s ← render prim_format c; ss ← render_all prim_format cs; Ok (s :: ss).
Proof. reflexivity. Qed.

(** Scanning the nodes of a subtree renders it and delivers the string. *)
Lemma stringify_subtree (t : tree) :
  well_formed t →
  ∀ (stack : list (node * list string)) (str : string) (rest : individual),
    foldlM step (stack, str) (flatten t ++ rest) =
    s ← render prim_format t;
    st ← deliver prim_format stack s;
    foldlM step st rest.
Proof.
  induction t as [nd cs IH] using tree_induction.
  intros [Hwf Hwfs]%tree_all_Tree stack str rest.
  assert (∀ (args : list string) (str : string),
            cs ≠ [] → (length args + length cs = node_arity nd)%nat →
            foldlM step ((nd, args) :: stack, str) (flatten_all cs ++ rest) =
            ss ← render_all prim_format cs;
            s ← convert nd (args ++ ss);
            st ← deliver prim_format stack s;
            foldlM step st rest) as Hforest.
  { clear Hwf str.
    induction IH as [|c cs Hc _ IHcs]; intros args str Hne Hlen; [done|].
    apply Forall_cons in Hwfs as [Hwc Hwfs].
    rewrite flatten_all_cons, <- app_assoc, Hc by done.
    rewrite render_all_cons.
    destruct (render prim_format c) as [s|e]; [|done].
    rewrite !bind_Ok. cbn [deliver]. rewrite unwind_unfold, length_app.
    cbn [length] in *.
    destruct (decide (cs = [])) as [->|Hcs].
    - cbn [length] in Hlen. rewrite bool_decide_true by lia.
      cbn [flatten_all app]. unfold render_all. rewrite !bind_Ok.
      destruct (convert nd (args ++ [s])) as [s'|e]; [|done].
      rewrite !bind_Ok. by destruct (deliver prim_format stack s').
    - assert (0 < length cs)%nat by (destruct cs; [done|cbn [length]; lia]).
      rewrite bool_decide_false by lia.
      rewrite bind_Ok, IHcs by (done || (rewrite length_app; cbn [length]; lia)).
      destruct (render_all prim_format cs) as [ss|e]; [|done].
      rewrite !bind_Ok. by rewrite <- app_assoc. }
  rewrite flatten_Tree, render_Tree. cbn [app foldlM].
  rewrite unwind_unfold. cbn [length].
  destruct (decide (cs = [])) as [->|Hcs].
  - rewrite bool_decide_true by done. unfold render_all.
    rewrite !bind_Ok. cbn [flatten_all app].
    destruct (convert nd []) as [s'|e]; [|done]. rewrite !bind_Ok.
    by destruct (deliver prim_format stack s').
  - assert (0 < length cs)%nat by (destruct cs; [done|cbn [length]; lia]).
    rewrite bool_decide_false by lia.
    rewrite bind_Ok, (Hforest [] str) by done.
    by destruct (render_all prim_format cs).
Qed.

(** X11: on the depth-first node list of a tree in which every node has as
    many children as its arity, the stack loop of [stringify_for_sympy]
    returns what rendering the tree recursively gives: the operands from
    left to right, then [convert_inverse_prim] on the node, with the same
    exception if one of those calls raises. *)
Theorem stringify_for_sympy_renders (t : tree) :
  well_formed t →
  stringify_for_sympy prim_format (flatten t) = render prim_format t.
Proof.
  intros Hwf. unfold stringify_for_sympy.
  rewrite <- (app_nil_r (flatten t)), stringify_subtree by done.
  by destruct (render prim_format t).
Qed.

(** X12: the templates of [neg] and [inv] have no field, so the string of
    a tree rooted at one of them is "Mul(-1)" or "Pow(-1)" whatever its
    operand, as long as the operand renders. *)
Theorem stringify_for_sympy_drops_operand (nd : node) (c : tree) (s : string) :
  well_formed (Tree nd [c]) →
  render prim_format c = Ok s →
  (node_name nd = "neg"%string →
   stringify_for_sympy prim_format (flatten (Tree nd [c]))
   = Ok "Mul(-1)"%string) ∧
  (node_name nd = "inv"%string →
   stringify_for_sympy prim_format (flatten (Tree nd [c]))
   = Ok "Pow(-1)"%string).
Proof.
  intros Hwf Hc. unfold stringify_for_sympy.
  rewrite <- (app_nil_r (flatten (Tree nd [c]))), stringify_subtree by done.
  rewrite render_Tree, render_all_cons, Hc. unfold render_all.
  rewrite !bind_Ok. unfold convert_inverse_prim.
  split; intros ->; reflexivity.
Qed.

(** X13: on an empty individual [stringify_for_sympy] returns the empty
    string, and on the nodes of several trees in a row the string of the
    last one. *)
Theorem stringify_for_sympy_last_tree (t t' : tree) (s : string) :
  well_formed t → well_formed t' →
  render prim_format t = Ok s →
  stringify_for_sympy prim_format [] = Ok ""%string ∧
  stringify_for_sympy prim_format (flatten t ++ flatten t')
  = render prim_format t'.
Proof.
  intros Hwf Hwf' Ht. split; [done|]. unfold stringify_for_sympy.
  rewrite stringify_subtree, Ht, !bind_Ok by done.
  cbn [deliver]. rewrite bind_Ok.
  rewrite <- (app_nil_r (flatten t')), stringify_subtree by done.
  by destruct (render prim_format t').
Qed.

End StringifyProperties.

Lemma stringify_for_sympy_renders_witness :
  stringify_for_sympy deap_format (flatten tree_add_sin_cos)
  = render deap_format tree_add_sin_cos.
Proof.
  apply (stringify_for_sympy_renders deap_format tree_add_sin_cos).
  vm_compute. tauto.
Defined.

Lemma stringify_for_sympy_drops_operand_witness :
  (node_name (nd "neg" 1) = "neg"%string →
   stringify_for_sympy deap_format (flatten tree_neg_x1)
   = Ok "Mul(-1)"%string) ∧
  (node_name (nd "neg" 1) = "inv"%string →
   stringify_for_sympy deap_format (flatten tree_neg_x1)
   = Ok "Pow(-1)"%string).
Proof.
  apply (stringify_for_sympy_drops_operand deap_format (nd "neg" 1) leaf_x1
           "x1"%string).
  - vm_compute. tauto.
  - reflexivity.
Defined.

Lemma stringify_for_sympy_last_tree_witness :
  stringify_for_sympy deap_format [] = Ok ""%string ∧
  stringify_for_sympy deap_format (flatten leaf_x1 ++ flatten tree_neg_x1)
  = render deap_format tree_neg_x1.
Proof.
  apply (stringify_for_sympy_last_tree deap_format leaf_x1 tree_neg_x1
           "x1"%string).
  - vm_compute. tauto.
  - vm_compute. tauto.
  - reflexivity.
Defined.

(** The string of sub(x1, neg(x1)). *)
Example stringify_sub_x1_neg :
  stringify_for_sympy deap_format (flatten tree_sub_x1_neg)
  = Ok "Add(x1, Mul(-1,Mul(-1)))"%string.
Proof. reflexivity. Qed.

(** ** The popConstraint decorator *)

Section PopConstraintProperties.
Variables UNARY_TOKENS BINARY_TOKENS : list string.
Variable gen : nat → individual.

Abbreviation rejected ind :=
  (check_inv (node_name <$> ind) ||
   check_trig UNARY_TOKENS BINARY_TOKENS (node_name <$> ind)).
Abbreviation pop_loop := (popConstraint_loop UNARY_TOKENS BINARY_TOKENS gen).

Lemma popConstraint_loop_unfold (fuel k : nat) :
  pop_loop (S fuel) k =
  if rejected (gen k) then pop_loop fuel (S k) else Some (gen k, S k).
Proof.
  cbn [popConstraint_loop].
  by destruct (check_inv _), (check_trig _ _ _).
Qed.

(** X14: when the first [n] individuals the wrapped generator produces are
    rejected by [check_inv] or [check_trig] and the next one is not, the
    loop returns that one after [n + 1] calls, which is the number of
    iterations it needs: with fewer it has not returned. *)
Theorem popConstraint_returns_first_valid (n k : nat) :
  (∀ j, (j < n)%nat → rejected (gen (k + j)) = true) →
  rejected (gen (k + n)) = false →
  (∀ fuel, (n < fuel)%nat →
     popConstraint_loop UNARY_TOKENS BINARY_TOKENS gen fuel k
     = Some (gen (k + n), S (k + n))) ∧
  (∀ fuel, (fuel ≤ n)%nat →
     popConstraint_loop UNARY_TOKENS BINARY_TOKENS gen fuel k = None).
Proof.
  revert k. induction n as [|n IH]; intros k Hrej Hok.
  - rewrite Nat.add_0_r in *. split; intros fuel Hfuel.
    + destruct fuel as [|fuel]; [lia|].
      by rewrite popConstraint_loop_unfold, Hok.
    + by replace fuel with 0%nat by lia.
  - destruct (IH (S k)) as [Hret Hnot].
    { intros j Hj. replace (S k + j)%nat with (k + S j)%nat by lia.
      apply Hrej. lia. }
    { by replace (S k + n)%nat with (k + S n)%nat by lia. }
    pose proof (Hrej 0%nat ltac:(lia)) as Hk. rewrite Nat.add_0_r in Hk.
    split; intros fuel Hfuel.
    + destruct fuel as [|fuel]; [lia|].
      rewrite popConstraint_loop_unfold, Hk, Hret by lia.
      by replace (S k + n)%nat with (k + S n)%nat by lia.
    + destruct fuel as [|fuel]; [done|].
      rewrite popConstraint_loop_unfold, Hk. apply Hnot. lia.
Qed.

(** X15: whatever the loop returns has no adjacent inverse tokens and no
    trigonometric token inside an open trigonometric subtree, and is the
    first produced individual of which that is true; when every produced
    individual is rejected the loop never returns. *)
Theorem popConstraint_returns_only_valid (k : nat) :
  (∀ fuel inds k',
     pop_loop fuel k = Some (inds, k') →
     ¬ adjacent_inverses (node_name <$> inds) ∧
     ¬ trig_in_open_subtree UNARY_TOKENS BINARY_TOKENS (node_name <$> inds) ∧
     ∃ n, inds = gen (k + n) ∧ k' = S (k + n) ∧
          ∀ j, (j < n)%nat → rejected (gen (k + j)) = true) ∧
  ((∀ j, rejected (gen (k + j)) = true) → ∀ fuel, pop_loop fuel k = None).
Proof.
  split.
  - intros fuel. revert k.
    induction fuel as [|fuel IH]; intros k inds k'; [done|].
    rewrite popConstraint_loop_unfold.
    destruct (rejected (gen k)) eqn:Hk.
    + intros (Hinv & Htrig & n & -> & -> & Hrej)%IH.
      split; [done|]. split; [done|]. exists (S n).
      split; [f_equal; lia|]. split; [lia|].
      intros [|j] Hj; [by rewrite Nat.add_0_r|].
      replace (k + S j)%nat with (S k + j)%nat by lia. apply Hrej. lia.
    + intros [= <- <-]. apply orb_false_elim in Hk as [Hinv Htrig].
      split; [intros Hadj%check_inv_true; congruence|].
      split; [intros Hopen%check_trig_true; congruence|].
      exists 0%nat. rewrite Nat.add_0_r. split; [done|]. split; [done|].
      intros j Hj. lia.
  - intros Hall fuel. revert k Hall.
    induction fuel as [|fuel IH]; intros k Hall; [done|].
    pose proof (Hall 0%nat) as Hk. rewrite Nat.add_0_r in Hk.
    rewrite popConstraint_loop_unfold, Hk. apply IH.
    intros j. replace (S k + j)%nat with (k + S j)%nat by lia. apply Hall.
Qed.

End PopConstraintProperties.

Lemma popConstraint_returns_first_valid_witness :
  (∀ fuel, (1 < fuel)%nat →
     popConstraint_loop unary_names binary_names
       nested_then_valid fuel 0
     = Some (sin_x1, 2%nat)) ∧
  (∀ fuel, (fuel ≤ 1)%nat →
     popConstraint_loop unary_names binary_names
       nested_then_valid fuel 0
     = None).
Proof.
  apply (popConstraint_returns_first_valid unary_names binary_names
           nested_then_valid
           1%nat 0%nat).
  - intros j Hj. replace j with 0%nat by lia. by vm_compute.
  - by vm_compute.
Defined.

Lemma popConstraint_returns_only_valid_witness :
  (¬ adjacent_inverses (node_name <$> sin_x1) ∧
   ¬ trig_in_open_subtree unary_names binary_names (node_name <$> sin_x1)) ∧
  (∀ fuel, popConstraint_loop unary_names binary_names (λ _, sin_cos_x1)
             fuel 0 = None).
Proof.
  destruct (popConstraint_returns_only_valid unary_names binary_names
              nested_then_valid 0%nat)
    as [Hvalid _].
  destruct (popConstraint_returns_only_valid unary_names binary_names
              (λ _, sin_cos_x1) 0%nat) as [_ Hnever].
  split.
  - destruct (Hvalid 2%nat sin_x1 2%nat) as (Hinv & Htrig & _);
      [by vm_compute|done].
  - apply Hnever. intros j. by vm_compute.
Defined.

(** ** generate_priors *)

Lemma generate_priors_loop (lib : Library) (toks : list nat) (dangling : Z) :
  (Forall (λ t, (t < L lib)%nat) toks →
   ∃ dangling',
     foldlM (λ (dangling : Z) t,
               match tokens lib !! t with
               | Some tok => Ok (dangling + (Z.of_nat (arity tok) - 1))
               | None => Raise IndexError
               end) dangling toks = Ok dangling') ∧
  (¬ Forall (λ t, (t < L lib)%nat) toks →
   foldlM (λ (dangling : Z) t,
             match tokens lib !! t with
             | Some tok => Ok (dangling + (Z.of_nat (arity tok) - 1))
             | None => Raise IndexError
             end) dangling toks = Raise IndexError).
Proof.
  revert dangling. induction toks as [|t toks IH]; intros dangling.
  - split; [by eexists|]. intros Hall. destruct Hall. constructor.
  - cbn [foldlM].
    destruct (tokens lib !! t) as [tok|] eqn:Ht.
    + apply lookup_lt_Some in Ht. rewrite bind_Ok.
      destruct (IH (dangling + (Z.of_nat (arity tok) - 1))) as [Hok Hraise].
      split.
      * intros Hall. apply Hok. by inversion Hall.
      * intros Hall. apply Hraise. intros Hall'. apply Hall.
        by constructor.
    + apply lookup_ge_None in Ht. split.
      * intros Hall. inversion Hall; subst. unfold L in *. lia.
      * done.
Qed.

(** X16: [generate_priors] never forbids a token: when every token is a
    token of the library it returns the all-zero matrix with
    [max_exp_length] rows, whatever the tokens and the length and constant
    bounds are; a token outside the library raises [IndexError]. *)
Theorem generate_priors_all_zero (lib : Library) (toks : list nat)
    (max_exp_length : nat) (expr_length max_const max_len min_len : Z) :
  (Forall (λ t, (t < L lib)%nat) toks →
   generate_priors lib toks max_exp_length expr_length max_const max_len min_len
   = Ok (zeros2 max_exp_length (L lib))) ∧
  (¬ Forall (λ t, (t < L lib)%nat) toks →
   generate_priors lib toks max_exp_length expr_length max_const max_len min_len
   = Raise IndexError).
Proof.
  unfold generate_priors.
  destruct (generate_priors_loop lib toks 1) as [Hok Hraise].
  split; intros Hall.
  - destruct (Hok Hall) as [d ->]. done.
  - by rewrite (Hraise Hall).
Qed.

Lemma generate_priors_all_zero_witness :
  generate_priors lib_AB [2; 3; 1; 0]%nat 5 4 3 30 4
    = Ok (zeros2 5 (L lib_AB)) ∧
  generate_priors lib_AB [2; 9]%nat 5 2 3 30 4 = Raise IndexError.
Proof.
  split.
  - apply (generate_priors_all_zero lib_AB [2; 3; 1; 0]%nat 5 4 3 30 4).
    repeat constructor.
  - apply (generate_priors_all_zero lib_AB [2; 9]%nat 5 2 3 30 4).
    intros Hall. inversion Hall as [|? ? _ Hall']; subst.
    inversion Hall' as [|? ? Hlt _]; subst. vm_compute in Hlt. lia.
Defined.

(** ** check_const *)

Section CheckConstProperties.
Variables UNARY_TOKENS BINARY_TOKENS : list string.

Abbreviation const_step := (check_const_step UNARY_TOKENS BINARY_TOKENS).
Abbreviation const_loop := (check_const_loop UNARY_TOKENS BINARY_TOKENS).
Abbreviation const_hit := (const_children UNARY_TOKENS BINARY_TOKENS).

Lemma getitem_lt (names : list string) (j : nat) :
  (j < length names)%nat →
  ∃ nm, names !! j = Some nm ∧ getitem names j = Ok nm.
Proof.
  intros Hj. destruct (lookup_lt_is_Some_2 names j Hj) as [nm Hnm].
  exists nm. unfold getitem. by rewrite Hnm.
Qed.

Lemma getitem_ge (names : list string) (j : nat) :
  (length names ≤ j)%nat → getitem names j = Raise IndexError.
Proof. intros Hj. unfold getitem. by rewrite lookup_ge_None_2. Qed.

Lemma check_const_step_raises (names : list string) (i : nat) (nm : string)
    (e : exn) :
  const_step names i nm = Raise e → e = IndexError.
Proof.
  unfold check_const_step, getitem.
  repeat (case_bool_decide || case_match || rewrite bind_Ok
          || rewrite bind_Raise); congruence.
Qed.

(** Where every operator is followed by its operands the tests of one
    iteration read inside the list. *)
Lemma check_const_step_safe (names : list string) (i : nat) (nm : string) :
  (nm ∈ UNARY_TOKENS → (S i < length names)%nat) →
  (nm ∈ BINARY_TOKENS → (S (S i) < length names)%nat) →
  const_step names i nm = Ok (const_hit names i nm).
Proof.
  intros Hun Hbin. unfold check_const_step, const_children, const_at.
  rewrite !Nat.add_1_r. replace (i + 2)%nat with (S (S i)) by lia.
  destruct (decide (nm ∈ UNARY_TOKENS)) as [Hu|Hu];
    destruct (decide (nm ∈ BINARY_TOKENS)) as [Hb|Hb];
    rewrite ?(bool_decide_true (nm ∈ UNARY_TOKENS)),
            ?(bool_decide_false (nm ∈ UNARY_TOKENS)),
            ?(bool_decide_true (nm ∈ BINARY_TOKENS)),
            ?(bool_decide_false (nm ∈ BINARY_TOKENS)) by done;
    cbn [andb orb].
  - pose proof (Hbin Hb) as Hlt.
    destruct (getitem_lt names (S i)) as (n1 & Hn1 & ->); [lia|].
    destruct (getitem_lt names (S (S i))) as (n2 & Hn2 & Hg2); [lia|].
    rewrite Hn1, Hn2, !bind_Ok. cbn [from_option].
    by destruct (str_contains "const" n1).
  - pose proof (Hun Hu) as Hlt.
    destruct (getitem_lt names (S i)) as (n1 & Hn1 & ->); [lia|].
    rewrite Hn1, !bind_Ok. cbn [from_option].
    by destruct (str_contains "const" n1).
  - pose proof (Hbin Hb) as Hlt.
    destruct (getitem_lt names (S i)) as (n1 & Hn1 & ->); [lia|].
    destruct (getitem_lt names (S (S i))) as (n2 & Hn2 & Hg2); [lia|].
    rewrite Hn1, Hn2, !bind_Ok. cbn [from_option].
    destruct (str_contains "const" n1); [by rewrite Hg2|done].
  - by rewrite bind_Ok.
Qed.

Lemma check_const_loop_safe (names todo : list string) (i : nat) :
  (∀ k nm, todo !! k = Some nm →
     (nm ∈ UNARY_TOKENS → (S (i + k) < length names)%nat) ∧
     (nm ∈ BINARY_TOKENS → (S (S (i + k)) < length names)%nat)) →
  ∃ b : bool,
    const_loop names i todo = Ok b ∧
    (b = true ↔
     ∃ k nm, todo !! k = Some nm ∧ const_hit names (i + k) nm = true).
Proof.
  revert i. induction todo as [|nm0 todo IH]; intros i Hsafe.
  - exists false. split; [done|]. split; [done|]. by intros (k & nm & ? & _).
  - cbn [check_const_loop].
    destruct (Hsafe 0%nat nm0 eq_refl) as [Hun Hbin].
    rewrite Nat.add_0_r in Hun, Hbin.
    rewrite check_const_step_safe, bind_Ok by done.
    destruct (const_hit names i nm0) eqn:Hhit.
    + exists true. split; [done|]. split; [|done]. intros _.
      exists 0%nat, nm0. by rewrite Nat.add_0_r.
    + destruct (IH (S i)) as (b & -> & Hb).
      { intros k nm Hk. specialize (Hsafe (S k) nm Hk).
        by replace (S i + k)%nat with (i + S k)%nat by lia. }
      exists b. split; [done|]. rewrite Hb. split.
      * intros (k & nm & Hk & Hh). exists (S k), nm. split; [done|].
        by replace (i + S k)%nat with (S i + k)%nat by lia.
      * intros ([|k] & nm & Hk & Hh).
        { cbn in Hk. injection Hk as <-. rewrite Nat.add_0_r in Hh.
          congruence. }
        exists k, nm. split; [done|].
        by replace (S i + k)%nat with (i + S k)%nat by lia.
Qed.

(** X17: on a name sequence in which every unary token is followed by at
    least one name and every binary token by at least two, as in the
    depth-first sequence of an expression, [check_const] returns without
    raising, and returns true exactly when some unary token is followed by
    a name containing "const" or some binary token by two such names. *)
Theorem check_const_on_expressions (ind : individual) :
  let names := node_name <$> ind in
  (∀ i nm, names !! i = Some nm →
     (nm ∈ UNARY_TOKENS → (S i < length names)%nat) ∧
     (nm ∈ BINARY_TOKENS → (S (S i) < length names)%nat)) →
  ∃ b : bool,
    check_const UNARY_TOKENS BINARY_TOKENS ind = Ok b ∧
    (b = true ↔
     ∃ i nm, names !! i = Some nm ∧
       (nm ∈ UNARY_TOKENS ∧ const_at names (S i) = true ∨
        nm ∈ BINARY_TOKENS ∧ const_at names (S i) = true ∧
        const_at names (S (S i)) = true)).
Proof.
  intros names Hsafe. unfold check_const. fold names.
  destruct (check_const_loop_safe names names 0%nat) as (b & Hb & Hiff);
    [done|].
  exists b. split; [done|]. rewrite Hiff.
  apply exist_proper. intros i. apply exist_proper. intros nm.
  apply and_iff_compat_l. cbn [Nat.add]. unfold const_children.
  rewrite orb_true_iff, !andb_true_iff, !bool_decide_eq_true. tauto.
Qed.

Lemma check_const_loop_last (names pre : list string) (nm : string)
    (i : nat) :
  nm ∈ UNARY_TOKENS ∨ nm ∈ BINARY_TOKENS →
  (i + length pre + 1 = length names)%nat →
  const_loop names i (pre ++ [nm]) = Ok true ∨
  const_loop names i (pre ++ [nm]) = Raise IndexError.
Proof.
  intros Hop. revert i.
  induction pre as [|nm0 pre IH]; intros i Hlen;
    cbn [app check_const_loop length] in *.
  - right. unfold check_const_step.
    rewrite !(getitem_ge names (i + 1)) by lia.
    destruct Hop as [Hu|Hb].
    + rewrite (bool_decide_true (nm ∈ UNARY_TOKENS)) by done. reflexivity.
    + rewrite (bool_decide_true (nm ∈ BINARY_TOKENS)) by done.
      by destruct (bool_decide (nm ∈ UNARY_TOKENS)).
  - destruct (const_step names i nm0) as [[]|e] eqn:Hstep.
    + by left.
    + rewrite bind_Ok. apply IH. lia.
    + right. by rewrite (check_const_step_raises _ _ _ _ Hstep).
Qed.

(** X18: on a name sequence that ends with a unary or binary token
    [check_const] never returns false: it returns true at an earlier token
    or raises [IndexError] reading past the end; on a lone operator it
    raises. *)
Theorem check_const_trailing_operator (pre : individual) (last : node) :
  node_name last ∈ UNARY_TOKENS ∨ node_name last ∈ BINARY_TOKENS →
  (check_const UNARY_TOKENS BINARY_TOKENS (pre ++ [last]) = Ok true ∨
   check_const UNARY_TOKENS BINARY_TOKENS (pre ++ [last]) = Raise IndexError) ∧
  check_const UNARY_TOKENS BINARY_TOKENS [last] = Raise IndexError.
Proof.
  intros Hop. unfold check_const. split.
  - rewrite fmap_app. cbn [fmap list_fmap].
    apply check_const_loop_last; [done|].
    rewrite length_app, length_fmap. cbn [length]. lia.
  - destruct (check_const_loop_last [node_name last] [] (node_name last)
                0%nat Hop eq_refl) as [Htrue|Hraise]; [|done].
    cbn [app check_const_loop] in Htrue. cbn [fmap list_fmap check_const_loop].
    unfold check_const_step in *.
    rewrite (getitem_ge [node_name last] (0 + 1)) in * by (cbn; lia).
    repeat (case_bool_decide; try done); by destruct Hop.
Qed.

End CheckConstProperties.

Lemma check_const_on_expressions_witness :
  ∃ b : bool,
    check_const unary_names binary_names
      [nd "add" 2; nd "sin" 1; nd "const" 0; nd "x1" 0] = Ok b ∧
    (b = true ↔
     ∃ i nm,
       ["add"; "sin"; "const"; "x1"]%string !! i = Some nm ∧
       (nm ∈ unary_names ∧
        const_at ["add"; "sin"; "const"; "x1"]%string (S i) = true ∨
        nm ∈ binary_names ∧
        const_at ["add"; "sin"; "const"; "x1"]%string (S i) = true ∧
        const_at ["add"; "sin"; "const"; "x1"]%string (S (S i)) = true)).
Proof.
  apply (check_const_on_expressions unary_names binary_names
           [nd "add" 2; nd "sin" 1; nd "const" 0; nd "x1" 0]).
  intros [|[|[|[|i]]]] nm Hnm; cbn in Hnm; try discriminate;
    injection Hnm as <-;
    (split; intros Hin;
     first [ cbn; lia
           | exfalso; revert Hin; apply (bool_decide_unpack _);
             vm_compute; exact I ]).
Defined.

Lemma check_const_trailing_operator_witness :
  (check_const unary_names binary_names [nd "x1" 0; nd "sin" 1] = Ok true ∨
   check_const unary_names binary_names [nd "x1" 0; nd "sin" 1]
     = Raise IndexError) ∧
  check_const unary_names binary_names [nd "sin" 1] = Raise IndexError.
Proof.
  apply (check_const_trailing_operator unary_names binary_names
           [nd "x1" 0] (nd "sin" 1)).
  left. apply (bool_decide_unpack _). vm_compute. exact I.
Defined.

(** * The factory make_prior *)

Section MakePriorProperties.
Variable lib : Library.

Lemma construct_None (prior_type : string) (kw : Prior.kwargs) :
  construct lib prior_type kw = None ↔ prior_type ∉ prior_types.
Proof.
  unfold construct, prior_types.
  destruct (String.eqb_spec prior_type "length") as [->|H1];
    [split; [done|set_solver]|].
  destruct (String.eqb_spec prior_type "child") as [->|H2];
    [split; [done|set_solver]|].
  destruct (String.eqb_spec prior_type "descendant") as [->|H3];
    [split; [done|set_solver]|].
  destruct (String.eqb_spec prior_type "repeat") as [->|H4];
    [split; [done|set_solver]|].
  destruct (String.eqb_spec prior_type "inverse") as [->|H5];
    [split; [done|set_solver]|].
  split; [intros _|done].
  rewrite !not_elem_of_cons. repeat split; try done. apply not_elem_of_nil.
Qed.

Lemma construct_built_by (prior_type : string) (kw : Prior.kwargs)
    (c : Constraint) :
  construct lib prior_type kw = Some (Returns c) → built_by prior_type c.
Proof.
  unfold construct.
  destruct (String.eqb_spec prior_type "length") as [->|H1].
  { destruct (_ && _); [|done].
    unfold LengthConstraint_init.
    destruct (default None (kw_min kw)), (default None (kw_max kw));
      by intros [= <-]. }
  destruct (String.eqb_spec prior_type "child") as [->|H2].
  { destruct (kw_children kw) as [children|]; [|done].
    destruct (kw_parents kw) as [parents|]; [|done].
    destruct (_ && _); [|done].
    destruct (ChildConstraint_init lib children parents) as [c'|e] eqn:Hinit;
      [|done].
    apply ChildConstraint_init_Ok in Hinit as (adj & _ & ->).
    intros [= <-]. by left. }
  destruct (String.eqb_spec prior_type "descendant") as [->|H3].
  { destruct (kw_descendants kw) as [ds|]; [|done].
    destruct (kw_ancestors kw) as [ancs|]; [|done].
    destruct (_ && _); [|done]. by intros [= <-]. }
  destruct (String.eqb_spec prior_type "repeat") as [->|H4].
  { destruct (kw_tokens kw) as [toks|]; [|done].
    destruct (_ && _); [|done].
    unfold RepeatConstraint_init.
    destruct (default None (kw_min kw)), (default None (kw_max kw));
      by intros [= <-]. }
  destruct (String.eqb_spec prior_type "inverse") as [->|H5]; [|done].
  destruct (_ && _); [|done].
  destruct (InverseUnaryConstraint_init lib) as [c'|e] eqn:Hinit; [|done].
  unfold InverseUnaryConstraint_init in Hinit.
  apply ChildConstraint_init_Ok in Hinit as (adj & _ & ->).
  intros [= <-]. by right.
Qed.

Lemma make_prior_loop_Returns (config : list (string * Prior.kwargs))
    (built out : list Constraint) :
  make_prior_loop lib config built = Returns out →
  ∃ new, out = built ++ new ∧
         Forall2 (λ entry c, construct lib entry.1 entry.2 = Some (Returns c))
                 config new.
Proof.
  revert built. induction config as [|[ty kw] config IH]; intros built;
    cbn [make_prior_loop].
  - intros [= <-]. exists []. by rewrite app_nil_r.
  - destruct (construct lib ty kw) as [[c|r]|] eqn:Hc; [|done|done].
    intros (new & -> & Hnew)%IH. exists (c :: new).
    rewrite <- app_assoc. split; [done|]. by constructor.
Qed.

Lemma make_prior_loop_app (pre rest : list (string * Prior.kwargs))
    (built : list Constraint) :
  make_prior_loop lib (pre ++ rest) built =
  match make_prior_loop lib pre built with
  | Returns built' => make_prior_loop lib rest built'
  | Raises r => Raises r
  end.
Proof.
  revert built. induction pre as [|[ty kw] pre IH]; intros built;
    cbn [app make_prior_loop]; [done|].
  by destruct (construct lib ty kw) as [[c|r]|].
Qed.

(** X19: when [make_prior] returns, the joint prior holds the given
    library and one constraint per entry of the configuration, in the order
    of the entries, each an instance of the class its type name selects in
    [prior_dict]; in particular every type name is one of the five keys. *)
Theorem make_prior_builds_each_entry
    (config_prior : list (string * Prior.kwargs)) (jp : JointPrior) :
  make_prior lib config_prior = Returns jp →
  library jp = lib ∧
  Forall2 (λ entry c, entry.1 ∈ prior_types ∧ built_by entry.1 c)
          config_prior (priors jp).
Proof.
  unfold make_prior.
  destruct (make_prior_loop lib config_prior []) as [built|r] eqn:Hloop;
    [|done].
  intros [= <-]. split; [done|]. cbn [priors].
  apply make_prior_loop_Returns in Hloop as (new & -> & Hnew).
  cbn [app]. eapply Forall2_impl; [exact Hnew|].
  intros [ty kw] c Hc. cbn [fst snd] in *. split.
  - destruct (decide (ty ∈ prior_types)) as [|Hty]; [done|].
    apply (construct_None ty kw) in Hty. congruence.
  - by eapply construct_built_by.
Qed.

(** X20: a configuration with a type name that is not a key of
    [prior_dict] never yields a joint prior, and when the entries before
    that name construct, [make_prior] fails on its assertion. *)
Theorem make_prior_unrecognized_type
    (pre post : list (string * Prior.kwargs)) (prior_type : string)
    (kw : Prior.kwargs) :
  prior_type ∉ prior_types →
  (∀ jp, make_prior lib (pre ++ (prior_type, kw) :: post) ≠ Returns jp) ∧
  (∀ jp, make_prior lib pre = Returns jp →
         make_prior lib (pre ++ (prior_type, kw) :: post)
         = Raises (Body AssertionError)).
Proof.
  intros Hty%(construct_None prior_type kw). unfold make_prior.
  rewrite make_prior_loop_app. split.
  - intros jp.
    destruct (make_prior_loop lib pre []); [|done].
    cbn [make_prior_loop]. by rewrite Hty.
  - intros jp.
    destruct (make_prior_loop lib pre []); [|done].
    intros _. cbn [make_prior_loop]. by rewrite Hty.
Qed.

End MakePriorProperties.

Lemma make_prior_builds_each_entry_witness :
  library {| library := lib_C;
             priors := [LengthConstraint (Some 4) (Some 30);
                        ChildConstraint [3; 2]%nat [2; 3]%nat [1; 2]] |}
    = lib_C ∧
  Forall2 (λ entry c, entry.1 ∈ prior_types ∧ built_by entry.1 c)
          [("length"%string, length_kwargs); ("inverse"%string, no_kwargs)]
          [LengthConstraint (Some 4) (Some 30);
           ChildConstraint [3; 2]%nat [2; 3]%nat [1; 2]].
Proof.
  apply (make_prior_builds_each_entry lib_C
           [("length"%string, length_kwargs); ("inverse"%string, no_kwargs)]
           {| library := lib_C;
              priors := [LengthConstraint (Some 4) (Some 30);
                         ChildConstraint [3; 2]%nat [2; 3]%nat [1; 2]] |}).
  reflexivity.
Defined.

Lemma make_prior_unrecognized_type_witness :
  (∀ jp, make_prior lib_C
           ([("length"%string, length_kwargs)] ++
            ("lenght"%string, length_kwargs) :: []) ≠ Returns jp) ∧
  make_prior lib_C
    ([("length"%string, length_kwargs)] ++
     ("lenght"%string, length_kwargs) :: [])
  = Raises (Body AssertionError).
Proof.
  destruct (make_prior_unrecognized_type lib_C
              [("length"%string, length_kwargs)] [] "lenght"%string
              length_kwargs) as [Hnever Hasserts].
  { apply (bool_decide_unpack _). vm_compute. exact I. }
  split; [exact Hnever|].
  eapply Hasserts. reflexivity.
Defined.

Lemma check_inv_reverse_witness :
  INVERSE_TOKENS !! "exp"%string = Some "log"%string ∧
  check_inv (reverse ["x1"; "log"; "exp"]%string)
  = check_inv ["x1"; "log"; "exp"]%string.
Proof.
  destruct (check_inv_reverse ["x1"; "log"; "exp"]%string) as [Hsym Hrev].
  split; [|exact Hrev].
  apply Hsym. vm_compute. reflexivity.
Defined.
